(** * Video-to-text transcription tool: a shallow embedding of [app.py]

    The repository is one Python module.  Its own logic is string
    formatting ([create_srt_content]), fixed-length slicing of a waveform
    ([split_audio_into_chunks]), a per-segment recognition loop that
    absorbs failures ([transcribe_audio_chunk], [transcribe_video]) and the
    validation and reporting done by [main_app].  Everything else (video
    decoding, silence detection, the recognition service, the UI toolkit) is
    an external collaborator and appears below as an oracle of a [World]
    record or as an event of the trace.

    Python [int] is [Z]; Python [str] is a list of Unicode code points. *)

From Stdlib Require Import Ascii String Strings.Byte DecimalString.
From Stdlib Require Import ZArith NArith Lia Bool List Sorted.
Import ListNotations.

Local Open Scope Z_scope.

(* ===================================================================== *)
(** ** Python strings *)
(* ===================================================================== *)

Module PyStr.

(** A character is a Unicode code point, a string a sequence of them, so
    that [len] counts what Python's [len] counts. *)
Definition char := N.
Definition str := list char.

(** ASCII literals of the source, written as Rocq strings. *)
Definition lit (s : string) : str :=
  map N_of_ascii (list_ascii_of_string s).

Definition len {A : Type} (s : list A) : Z := Z.of_nat (length s).

Fixpoint str_eqb (a b : str) : bool :=
  match a, b with
  | [], [] => true
  | x :: a', y :: b' => (x =? y)%N && str_eqb a' b'
  | _, _ => false
  end.

(** [x in l] for a list of strings. *)
Definition str_in (x : str) (l : list str) : bool := existsb (str_eqb x) l.

(** Truth value of a string: [if s:] holds exactly for the non-empty ones. *)
Definition truthy (s : str) : bool :=
  match s with [] => false | _ :: _ => true end.

(** [str.isspace] on one code point: the table of CPython's
    [_PyUnicode_IsWhitespace]. *)
Definition isspace (c : char) : bool :=
  (((9 <=? c) && (c <=? 13)) || ((28 <=? c) && (c <=? 32))
   || (c =? 133) || (c =? 160) || (c =? 5760)
   || ((8192 <=? c) && (c <=? 8202))
   || (c =? 8232) || (c =? 8233) || (c =? 8239) || (c =? 8287)
   || (c =? 12288))%N.

Fixpoint lstrip (s : str) : str :=
  match s with
  | [] => []
  | c :: s' => if isspace c then lstrip s' else s
  end.

Definition rstrip (s : str) : str := rev (lstrip (rev s)).

(** [s.strip()]: leading and trailing whitespace removed. *)
Definition strip (s : str) : str := rstrip (lstrip s).

Fixpoint startswith (p s : str) : bool :=
  match p, s with
  | [], _ => true
  | _ :: _, [] => false
  | a :: p', b :: s' => (a =? b)%N && startswith p' s'
  end.

(** [s.split(sep)] for a non-empty [sep]: a left-to-right scan for
    non-overlapping occurrences.  [skip] counts the characters of a matched
    separator still to pass over, [acc] is the current fragment, reversed. *)
Fixpoint split_go (sep : str) (skip : nat) (s : str) (acc : str) : list str :=
  match s with
  | [] => [rev acc]
  | c :: s' =>
      match skip with
      | S k => split_go sep k s' acc
      | O =>
          if startswith sep s
          then rev acc :: split_go sep (length sep - 1) s' []
          else split_go sep 0 s' (c :: acc)
      end
  end.

Definition split (sep s : str) : list str := split_go sep 0 s [].

(** [s.split()] without a separator: maximal runs of non-whitespace. *)
Fixpoint split_ws_go (s : str) (acc : str) : list str :=
  match s with
  | [] => if truthy acc then [rev acc] else []
  | c :: s' =>
      if isspace c
      then (if truthy acc then rev acc :: split_ws_go s' [] else split_ws_go s' [])
      else split_ws_go s' (c :: acc)
  end.

Definition split_ws (s : str) : list str := split_ws_go s [].

(** [sep.join(parts)]. *)
Fixpoint join (sep : str) (parts : list str) : str :=
  match parts with
  | [] => []
  | [p] => p
  | p :: rest => p ++ sep ++ join sep rest
  end.

(** Decimal digits of a natural number. *)
Definition digits (n : N) : str := lit (NilEmpty.string_of_uint (N.to_uint n)).

(** [str(z)], which is what [f"{z}"] inserts. *)
Definition str_of_int (z : Z) : str :=
  if z <? 0 then lit "-" ++ digits (Z.abs_N z) else digits (Z.to_N z).

Definition zfill (w : nat) (ds : str) : str :=
  repeat 48%N (w - length ds) ++ ds.

(** [f"{z:02d}"]: sign first, then the digits zero-padded to a total width
    of two. *)
Definition format_02d (z : Z) : str :=
  if z <? 0 then lit "-" ++ zfill 1 (digits (Z.abs_N z))
  else zfill 2 (digits (Z.to_N z)).

(** [enumerate(l)]. *)
Fixpoint enumerate_from {A : Type} (i : Z) (l : list A) : list (Z * A) :=
  match l with
  | [] => []
  | x :: l' => (i, x) :: enumerate_from (i + 1) l'
  end.

Definition enumerate {A : Type} (l : list A) : list (Z * A) :=
  enumerate_from 0 l.

Definition nl : str := [10%N].

(** [l[start:stop]] for integer bounds: negative bounds count from the end,
    and both are clamped to the sequence. *)
Definition py_slice {A : Type} (l : list A) (start stop : Z) : list A :=
  let n := len l in
  let clamp v := if v <? 0 then Z.max (v + n) 0 else Z.min v n in
  firstn (Z.to_nat (clamp stop - clamp start)) (skipn (Z.to_nat (clamp start)) l).

(** [s.rfind(c)] for a one-character [c]: the last index of [c], or -1. *)
Definition rfind (c : char) (s : str) : Z :=
  fold_left (fun found ix => if (snd ix =? c)%N then fst ix else found)
            (enumerate s) (-1).

End PyStr.

Import PyStr.

(* ===================================================================== *)
(** ** Subtitle formatter (app.py, lines 200-223) *)
(* ===================================================================== *)

(** One iteration of the loop of [create_srt_content]: the text appended
    to [srt_content] for the fragment [line] at index [i]. *)
Definition srt_step (chunk_duration : Z) (srt_content : str) (il : Z * str) : str :=
  let '(i, line) := il in
  if truthy (strip line) then
    let start_time := i * chunk_duration in
    let end_time := (i + 1) * chunk_duration in
    let start_hours := start_time / 3600 in
    let start_minutes := (start_time mod 3600) / 60 in
    let start_seconds := start_time mod 60 in
    let end_hours := end_time / 3600 in
    let end_minutes := (end_time mod 3600) / 60 in
    let end_seconds := end_time mod 60 in
    let srt_content := srt_content ++ (str_of_int (i + 1) ++ nl) in
    let srt_content :=
      srt_content ++ (format_02d start_hours ++ lit ":" ++ format_02d start_minutes
                      ++ lit ":" ++ format_02d start_seconds ++ lit ",000 --> ") in
    let srt_content :=
      srt_content ++ (format_02d end_hours ++ lit ":" ++ format_02d end_minutes
                      ++ lit ":" ++ format_02d end_seconds ++ lit ",000" ++ nl) in
    srt_content ++ (strip line ++ lit "." ++ nl ++ nl)
  else srt_content.

Definition create_srt_content (transcript : str) (chunk_duration : Z) : str :=
  let lines := split (lit ". ") transcript in
  fold_left (srt_step chunk_duration) (enumerate lines) [].

(* ===================================================================== *)
(** ** Effects: exceptions and the trace of observable events *)
(* ===================================================================== *)

(** Exceptions, all of them subclasses of Python's [Exception]: the two
    the recognition library raises by name, [ValueError], and any other. *)
Inductive exn : Type :=
| UnknownValueError
| RequestError (msg : str)
| ValueError (msg : str)
| OtherException (msg : str).

(** [str(e)]. *)
Definition exn_str (e : exn) : str :=
  match e with
  | UnknownValueError => []
  | RequestError msg | ValueError msg | OtherException msg => msg
  end.

Inductive result (A : Type) : Type :=
| Ok (a : A)
| Raise (e : exn).
Arguments Ok {A} a.
Arguments Raise {A} e.

(** The user-facing messages of the source, one constructor per message
    text, carrying the values its f-string interpolates. *)
Inductive message : Type :=
| MsgNoAudioTrack                      (* line 82 *)
| MsgExtractError (e : str)            (* line 89 *)
| MsgSplitError (e : str)              (* line 112 *)
| MsgServiceError (e : str)            (* line 133 *)
| MsgChunkError (e : str)              (* line 136 *)
| MsgSplitFailed                       (* line 162 *)
| MsgGeneralError (e : str)            (* line 190 *)
| MsgFileTooLarge (file_size : Z)      (* line 320 *)
| MsgUnsupportedFormat (ext : str)     (* line 324 *)
| MsgFileLoaded (name : str)           (* line 327 *)
| MsgFileSize (file_size : Z)          (* line 328 *)
| MsgNoTextFound.                      (* line 389 *)

(** The status texts handed to the progress callback. *)
Inductive progress_msg : Type :=
| PExtracting
| PSplitting
| PChunk (number total : Z)
| PAssembling
| PDone.

Inductive temp_file : Type := TempAudio | TempVideo.
Inductive download_kind : Type := TxtFile | SrtFile.
Inductive metric_label : Type := WordCount | CharCount | ProcessingDuration.

(** What a run of the program does that can be observed from outside. *)
Inductive event : Type :=
| St_error (m : message)
| St_warning (m : message)
| St_success (m : message)
| St_info (m : message)
| St_progress (pct : Z) (m : progress_msg)
| St_text_area (value : str)
| St_download (kind : download_kind) (data : str)
| St_metric (label : metric_label) (value : Z)
| Sleep
| Call_extract                 (* extract_audio_from_video is entered *)
| Call_recognize (k : nat)     (* transcribe_audio_chunk is entered *)
| Unlink (f : temp_file).

(** A computation writes events and either returns or raises. *)
Definition M (A : Type) : Type := (list event * result A)%type.

Definition ret {A : Type} (a : A) : M A := ([], Ok a).

Definition bind {A B : Type} (m : M A) (f : A -> M B) : M B :=
  match m with
  | (l, Ok a) => let '(l', r) := f a in (l ++ l', r)
  | (l, Raise e) => (l, Raise e)
  end.

Definition emit (e : event) : M unit := ([e], Ok tt).
Definition raise {A : Type} (e : exn) : M A := ([], Raise e).
Definition lift {A : Type} (r : result A) : M A := ([], r).

(** [try: m  except Exception as e: h e]. *)
Definition try_except {A : Type} (m : M A) (h : exn -> M A) : M A :=
  match m with
  | (l, Raise e) => let '(l', r) := h e in (l ++ l', r)
  | (l, Ok a) => (l, Ok a)
  end.

(** [try: m  finally: fin]. *)
Definition try_finally {A : Type} (m : M A) (fin : M unit) : M A :=
  let '(l, r) := m in
  match fin with
  | (l', Ok _) => (l ++ l', r)
  | (l', Raise e) => (l ++ l', Raise e)
  end.

Declare Scope py_scope.
Delimit Scope py_scope with py.
Notation "x <- m ;; k" := (bind m (fun x => k))
  (at level 61, m at next level, right associativity) : py_scope.
Notation "m ;; k" := (bind m (fun _ => k))
  (at level 61, right associativity) : py_scope.
Local Open Scope py_scope.

Definition trace {A : Type} (m : M A) : list event := fst m.
Definition outcome {A : Type} (m : M A) : result A := snd m.

(* ===================================================================== *)
(** ** External collaborators *)
(* ===================================================================== *)

(** A waveform at the granularity the audio library slices and measures
    it in: one element per millisecond. *)
Definition AudioSegment : Type := list Z.

(** What opening the video and writing its audio track does (lines 80-86). *)
Inductive clip_outcome : Type :=
| ClipNoAudio
| ClipWritten
| ClipRaises (e : exn).

Record World : Type := {
  (* VideoFileClip(video_path) and audio.write_audiofile(output_path) *)
  clip : clip_outcome;
  (* AudioSegment.from_wav(audio_path) *)
  from_wav : result AudioSegment;
  (* split_on_silence(audio, min_silence_len=1000,
       silence_thresh=audio.dBFS - 14, keep_silence=500) *)
  split_on_silence : AudioSegment -> result (list AudioSegment);
  (* the body of the try of transcribe_audio_chunk, for the k-th request:
     export to WAV, record, recognize_google(audio_data, language) *)
  recognize : nat -> AudioSegment -> str -> result str;
  (* os.unlink *)
  unlink : temp_file -> result unit;
  (* str.lower, which rests on the Unicode case tables *)
  unicode_lower : str -> str;
  (* os.sep and os.altsep: "/" and None on POSIX, "\" and "/" on Windows *)
  os_sep : char;
  os_altsep : option char
}.

(** The uploaded file: its name and its bytes. *)
Record UploadedFile : Type := {
  name : str;
  getvalue : list byte
}.

(* ===================================================================== *)
(** ** Configuration and constants (app.py, lines 19-31) *)
(* ===================================================================== *)

Definition SUPPORTED_VIDEO_FORMATS : list str :=
  [lit ".mp4"; lit ".avi"; lit ".mov"; lit ".mkv"; lit ".webm"; lit ".flv";
   lit ".m4v"].

Definition MAX_FILE_SIZE : Z := 200 * 1024 * 1024.

(* ===================================================================== *)
(** ** Audio extraction and segmentation (app.py, lines 77-113) *)
(* ===================================================================== *)

Definition extract_audio_from_video (w : World) : M bool :=
  emit Call_extract ;;
  try_except
    (match clip w with
     | ClipNoAudio => emit (St_error MsgNoAudioTrack) ;; ret false
     | ClipWritten => ret true
     | ClipRaises e => raise e
     end)
    (fun e => emit (St_error (MsgExtractError (exn_str e))) ;; ret false).

(** Length of [range(start, stop, step)] for a non-zero [step]. *)
Definition range_len (start stop step : Z) : nat :=
  if 0 <? step then
    (if start <? stop then Z.to_nat ((stop - start - 1) / step + 1) else 0%nat)
  else
    (if stop <? start then Z.to_nat ((start - stop - 1) / (- step) + 1) else 0%nat).

(** [range(start, stop, step)]; a zero step raises [ValueError]. *)
Definition py_range (start stop step : Z) : result (list Z) :=
  if step =? 0 then Raise (ValueError (lit "range() arg 3 must not be zero"))
  else Ok (map (fun k => start + Z.of_nat k * step)
               (seq 0 (range_len start stop step))).

(** [audio[start:stop]] of the audio library: both bounds are first capped
    at the length, a negative one then counts from the end. *)
Definition audio_slice (audio : AudioSegment) (start stop : Z) : AudioSegment :=
  let n := len audio in
  let start := Z.min start n in
  let stop := Z.min stop n in
  let parse_position v := if v <? 0 then n - Z.abs v else v in
  py_slice audio (parse_position start) (parse_position stop).

(** [[audio[i:i+chunk_length_ms]
      for i in range(0, len(audio), chunk_length_ms)]] (lines 106 and 108). *)
Definition fixed_length_chunks (audio : AudioSegment) (chunk_length_ms : Z)
  : result (list AudioSegment) :=
  match py_range 0 (len audio) chunk_length_ms with
  | Raise e => Raise e
  | Ok starts => Ok (map (fun i => audio_slice audio i (i + chunk_length_ms)) starts)
  end.

Definition split_audio_into_chunks (w : World) (chunk_length_ms : Z)
  : M (list AudioSegment) :=
  try_except
    (audio <- lift (from_wav w) ;;
     chunks <-
       try_except
         (chunks <- lift (split_on_silence w audio) ;;
          if len chunks <=? 1
          then lift (fixed_length_chunks audio chunk_length_ms)
          else ret chunks)
         (fun _ => lift (fixed_length_chunks audio chunk_length_ms)) ;;
     ret chunks)
    (fun e => emit (St_error (MsgSplitError (exn_str e))) ;; ret []).

(* ===================================================================== *)
(** ** Segment transcription and assembly (app.py, lines 115-198) *)
(* ===================================================================== *)

(** [k] numbers the request: the service may answer the same audio
    differently each time it is asked.  The constructor [sr.Recognizer()]
    of line 117, which stands before the [try], only sets attributes and is
    taken to succeed. *)
Definition transcribe_audio_chunk (w : World) (k : nat)
  (audio_chunk : AudioSegment) (language : str) : M str :=
  emit (Call_recognize k) ;;
  try_except
    (text <- lift (recognize w k audio_chunk language) ;;
     ret text)
    (fun e =>
       match e with
       | UnknownValueError => ret []
       | RequestError msg => emit (St_warning (MsgServiceError msg)) ;; ret []
       | _ => emit (St_warning (MsgChunkError (exn_str e))) ;; ret []
       end).

Definition callback : Type := Z -> progress_msg -> M unit.

(** [if progress_callback: progress_callback(pct, msg)]. *)
Definition report (progress_callback : option callback) (pct : Z)
  (msg : progress_msg) : M unit :=
  match progress_callback with
  | Some cb => cb pct msg
  | None => ret tt
  end.

(** The loop of lines 168-177 over [enumerate(audio_chunks)]. *)
Fixpoint transcribe_loop (w : World) (language : str)
  (progress_callback : option callback) (total_chunks : Z)
  (ichunks : list (Z * AudioSegment)) (transcript_parts : list str)
  : M (list str) :=
  match ichunks with
  | [] => ret transcript_parts
  | (i, chunk) :: rest =>
      report progress_callback (30 + (60 * i / total_chunks))
             (PChunk (i + 1) total_chunks) ;;
      text <- transcribe_audio_chunk w (Z.to_nat i) chunk language ;;
      let transcript_parts :=
        if truthy (strip text) then transcript_parts ++ [strip text]
        else transcript_parts in
      emit Sleep ;;
      transcribe_loop w language progress_callback total_chunks rest
                      transcript_parts
  end.

(** The [finally] of lines 193-198. *)
Definition cleanup (w : World) : M unit :=
  try_except
    (emit (Unlink TempAudio) ;; lift (unlink w TempAudio) ;;
     emit (Unlink TempVideo) ;; lift (unlink w TempVideo))
    (fun _ => ret tt).

(** Lines 139-198.  The two temporary files of lines 141-146 are created
    before the [try]; creating them and copying the upload is taken to
    succeed and leaves no event. *)
Definition transcribe_video (w : World) (video_file : UploadedFile)
  (language : str) (chunk_duration : Z) (progress_callback : option callback)
  : M (option str) :=
  try_finally
    (try_except
       (report progress_callback 10 PExtracting ;;
        extracted <- extract_audio_from_video w ;;
        if negb extracted then ret None else
        report progress_callback 20 PSplitting ;;
        let chunk_length_ms := chunk_duration * 1000 in
        audio_chunks <- split_audio_into_chunks w chunk_length_ms ;;
        match audio_chunks with
        | [] => emit (St_error MsgSplitFailed) ;; ret None
        | _ :: _ =>
            let total_chunks := len audio_chunks in
            transcript_parts <-
              transcribe_loop w language progress_callback total_chunks
                              (enumerate audio_chunks) [] ;;
            report progress_callback 95 PAssembling ;;
            let full_transcript := join (lit " ") transcript_parts in
            report progress_callback 100 PDone ;;
            ret (if truthy (strip full_transcript)
                 then Some full_transcript else None)
        end)
       (fun e => emit (St_error (MsgGeneralError (exn_str e))) ;; ret None))
    (cleanup w).

(* ===================================================================== *)
(** ** The page: validation, run and report (app.py, lines 315-389) *)
(* ===================================================================== *)

(** [os.path.splitext(p)]: the extension starts at the last dot of the
    last path component, leading dots of that component set aside. *)
Definition splitext (sep : char) (altsep : option char) (p : str) : str * str :=
  let sepIndex := rfind sep p in
  let sepIndex :=
    match altsep with
    | Some a => Z.max sepIndex (rfind a p)
    | None => sepIndex
    end in
  let dotIndex := rfind 46%N p in
  if (sepIndex <? dotIndex)
     && existsb (fun c => negb (c =? 46)%N) (py_slice p (sepIndex + 1) dotIndex)
  then (firstn (Z.to_nat dotIndex) p, skipn (Z.to_nat dotIndex) p)
  else (p, []).

(** [update_progress] of lines 334-336. *)
Definition update_progress : callback :=
  fun progress message => emit (St_progress progress message).

(** [main_app] from line 315 on: [uploaded_file] is what the uploader
    holds, [start_clicked] whether the start button was pressed.  Widgets
    appear as events carrying the data they show; labels and download file
    names are left out, and the third metric carries the chunk duration its
    text is formatted from. *)
Definition main_app (w : World) (uploaded_file : option UploadedFile)
  (start_clicked : bool) (selected_language : str) (chunk_duration : Z)
  : M unit :=
  match uploaded_file with
  | None => ret tt
  | Some f =>
      let file_size := len (getvalue f) in
      let file_extension :=
        unicode_lower w (snd (splitext (os_sep w) (os_altsep w) (name f))) in
      if MAX_FILE_SIZE <? file_size then
        emit (St_error (MsgFileTooLarge file_size))
      else if negb (str_in file_extension SUPPORTED_VIDEO_FORMATS) then
        emit (St_error (MsgUnsupportedFormat file_extension))
      else
        emit (St_success (MsgFileLoaded (name f))) ;;
        emit (St_info (MsgFileSize file_size)) ;;
        if start_clicked then
          transcript <-
            transcribe_video w f selected_language chunk_duration
                             (Some update_progress) ;;
          match transcript with
          | Some (c :: t) =>
              let transcript := c :: t in
              emit (St_text_area transcript) ;;
              emit (St_download TxtFile transcript) ;;
              let srt_content := create_srt_content transcript chunk_duration in
              emit (St_download SrtFile srt_content) ;;
              let word_count := len (split_ws transcript) in
              let char_count := len transcript in
              emit (St_metric WordCount word_count) ;;
              emit (St_metric CharCount char_count) ;;
              emit (St_metric ProcessingDuration chunk_duration)
          | _ => emit (St_error MsgNoTextFound)
          end
        else ret tt
  end.

(* ===================================================================== *)
(** ** Caption blocks, as the subtitle format describes them *)
(* ===================================================================== *)

(** A caption block: its sequence number, its time range in seconds and
    its text line. *)
Record caption : Type := {
  seq_no : Z;
  start_s : Z;
  end_s : Z;
  text : str
}.

(** [HH:MM:SS,000] for a whole number of seconds. *)
Definition render_time (t : Z) : str :=
  format_02d (t / 3600) ++ lit ":" ++ format_02d ((t mod 3600) / 60)
  ++ lit ":" ++ format_02d (t mod 60) ++ lit ",000".

(** The four lines of a block: number, time range, text, blank. *)
Definition render_caption (c : caption) : str :=
  str_of_int (seq_no c) ++ nl
  ++ render_time (start_s c) ++ lit " --> " ++ render_time (end_s c) ++ nl
  ++ text c ++ nl ++ nl.

(** The block of the fragment [line] found at index [i] of the split. *)
Definition caption_of (chunk_duration i : Z) (line : str) : caption :=
  {| seq_no := i + 1;
     start_s := i * chunk_duration;
     end_s := (i + 1) * chunk_duration;
     text := strip line ++ lit "." |}.

(** The blocks of a list of indexed fragments: one per fragment that is
    not blank, blank ones giving none. *)
Definition captions_from (chunk_duration : Z) (ilines : list (Z * str))
  : list caption :=
  flat_map (fun il => if truthy (strip (snd il))
                      then [caption_of chunk_duration (fst il) (snd il)]
                      else [])
           ilines.

Definition captions (transcript : str) (chunk_duration : Z) : list caption :=
  captions_from chunk_duration (enumerate (split (lit ". ") transcript)).

(** [R] holds between every element of a list and its successor. *)
Fixpoint adjacent {A : Type} (R : A -> A -> Prop) (l : list A) : Prop :=
  match l with
  | a :: (b :: _) as t => R a b /\ adjacent R t
  | _ => True
  end.

(** Each block is numbered one more than the block before it. *)
Definition consecutive_numbers (cs : list caption) : Prop :=
  adjacent (fun a b => seq_no b = seq_no a + 1) cs.

(** Each block starts when the block before it ends. *)
Definition contiguous_ranges (cs : list caption) : Prop :=
  adjacent (fun a b => start_s b = end_s a) cs.

(** A fragment of the split that is empty once stripped. *)
Definition has_blank_fragment (transcript : str) : Prop :=
  exists j line, nth_error (split (lit ". ") transcript) j = Some line
                 /\ strip line = [].

(* ===================================================================== *)
(** ** Vocabulary of the properties *)
(* ===================================================================== *)

(** A progress callback that returns normally whenever it is invoked. *)
Definition quiet (progress_callback : option callback) : Prop :=
  match progress_callback with
  | None => True
  | Some cb => forall pct msg, outcome (cb pct msg) = Ok tt
  end.

(** The string a computation returns, the empty one if it raises. *)
Definition returned_text (m : M str) : str :=
  match outcome m with
  | Ok s => s
  | Raise _ => []
  end.

(** The segment transcripts of a run, in segment order: what
    [transcribe_audio_chunk] returns for each chunk. *)
Definition segment_texts (w : World) (language : str)
  (audio_chunks : list AudioSegment) : list str :=
  map (fun ic => returned_text
                   (transcribe_audio_chunk w (Z.to_nat (fst ic)) (snd ic) language))
      (enumerate audio_chunks).

(** Strip each entry and keep the ones that are not empty. *)
Definition stripped_nonempty (texts : list str) : list str :=
  filter truthy (map strip texts).

Definition space : char := 32%N.

Definition leading_space (s : str) : Prop := exists t, s = space :: t.
Definition trailing_space (s : str) : Prop := exists t, s = t ++ [space].
Definition double_space (s : str) : Prop :=
  exists a b, s = a ++ space :: space :: b.

(** The first character, if there is one, is not whitespace. *)
Definition starts_clean (s : str) : Prop :=
  match s with
  | [] => True
  | c :: _ => isspace c = false
  end.

(** The last character, if there is one, is not whitespace. *)
Definition ends_clean (s : str) : Prop := starts_clean (rev s).

(** Decision of [double_space]. *)
Fixpoint has_double_space (s : str) : bool :=
  match s with
  | a :: (b :: _) as t => ((a =? space)%N && (b =? space)%N) || has_double_space t
  | _ => false
  end.

(** Silence-based splitting degenerates: it raises, or yields at most one
    segment. *)
Definition silence_degenerate (w : World) (audio : AudioSegment) : Prop :=
  match split_on_silence w audio with
  | Raise _ => True
  | Ok chunks => len chunks <= 1
  end.

(** The elements of a waveform at the positions [a <= p < b]. *)
Definition segment_range (audio : AudioSegment) (a b : Z) : AudioSegment :=
  firstn (Z.to_nat (b - a)) (skipn (Z.to_nat a) audio).

(** The [k]-th fixed-length slice: the positions from [k * L] up to, but
    not including, [min ((k + 1) * L) n]. *)
Definition kth_chunk (audio : AudioSegment) (L : Z) (k : nat) : AudioSegment :=
  segment_range audio (Z.of_nat k * L)
                (Z.min ((Z.of_nat k + 1) * L) (len audio)).

(** [ceil(n / L)] for a positive [L]. *)
Definition ceil_div (n L : Z) : Z := (n + L - 1) / L.




(** The extension of the uploaded file, as [main_app] takes it from the
    file name before lowercasing. *)
Definition extension (w : World) (f : UploadedFile) : str :=
  snd (splitext (os_sep w) (os_altsep w) (name f)).

Definition is_ascii (c : char) : Prop := (c < 128)%N.

(** Lowercasing of an ASCII character: [A-Z] to [a-z], the rest kept. *)
Definition ascii_lower (c : char) : char :=
  if ((65 <=? c) && (c <=? 90))%N then (c + 32)%N else c.

(** On ASCII strings [str.lower] is [ascii_lower] character by
    character; this is what is assumed of the case tables. *)
Definition lower_agrees_on_ascii (w : World) : Prop :=
  forall s, Forall is_ascii s -> unicode_lower w s = map ascii_lower s.

(** Two strings equal once both are lowercased. *)
Definition same_ignoring_case (w : World) (a b : str) : Prop :=
  unicode_lower w a = unicode_lower w b.

(** [e] is [fmt] written in some mix of upper and lower case letters. *)
Definition letter_case_variant (e fmt : str) : Prop :=
  Forall is_ascii e /\ map ascii_lower e = fmt.

(** The file passes both checks of lines 319-325. *)
Definition passes_validation (w : World) (f : UploadedFile) : Prop :=
  len (getvalue f) <= MAX_FILE_SIZE
  /\ In (unicode_lower w (extension w f)) SUPPORTED_VIDEO_FORMATS.

(** A world for examples: the audio track is written, the waveform
    [audio] is loaded, silence-based splitting has the outcome [silence]
    and the service answers the [k]-th request with the [k]-th of
    [answers] (no speech detected once they run out); a POSIX system. *)
Definition example_world (audio : AudioSegment)
  (silence : result (list AudioSegment)) (answers : list (result str))
  : World :=
  {| clip := ClipWritten;
     from_wav := Ok audio;
     split_on_silence := fun _ => silence;
     recognize := fun k _ _ => nth k answers (Raise UnknownValueError);
     unlink := fun _ => Ok tt;
     unicode_lower := map ascii_lower;
     os_sep := 47%N;
     os_altsep := None |}.

Definition example_file : UploadedFile :=
  {| name := lit "talk.MP4"; getvalue := [x00; x01; x02] |}.

(** Number of tokens of a string delimited by whitespace: a token starts
    at each non-whitespace character that is the first character or follows
    a whitespace character. *)
Fixpoint count_tokens (after_space : bool) (s : str) : nat :=
  match s with
  | [] => 0
  | c :: s' =>
      if isspace c then count_tokens true s'
      else ((if after_space then 1 else 0) + count_tokens false s')%nat
  end.

Definition token_count (s : str) : Z := Z.of_nat (count_tokens true s).

Definition whitespace_count (s : str) : Z := len (filter isspace s).

(** Sum of the lengths of a list of strings. *)
Definition total_len (l : list str) : Z := len (concat l).

(* ===================================================================== *)
(** ** Dependency check and installer (app.py, lines 225-261, 438-440) *)
(* ===================================================================== *)

(** What importing a module does: it succeeds, raises [ImportError], or
    raises something else while the module initialises. *)
Inductive import_outcome : Type :=
| Imported
| ImportError
| ImportRaises (e : exn).

(** What [subprocess.run(..., check=True)] does: the command exits with
    status zero, exits otherwise ([CalledProcessError], with its text), or
    cannot be run at all. *)
Inductive run_outcome : Type :=
| Exit_zero
| CalledProcessError (e : str)
| Run_raises (e : exn).

(** What these two functions show and do. *)
Inductive setup_event : Type :=
| Dep_error_header                    (* line 243 *)
| Dep_error_package (package : str)   (* line 245 *)
| Dep_info_install                    (* line 246 *)
| Dep_code (command : str)            (* line 247 *)
| Pip_run (args : list str)           (* lines 257 and 258 *)
| Install_success                     (* line 259 *)
| Install_error (e : str).            (* line 261 *)

Definition required_packages : list str :=
  [lit "streamlit"; lit "speech_recognition"; lit "pydub"; lit "moviepy"].

(** The loop of lines 236-240: [__import__] each package, collect the
    ones that raise [ImportError]. *)
Fixpoint find_missing (import_ : str -> import_outcome) (packages : list str)
  (missing_packages : list str) : result (list str) :=
  match packages with
  | [] => Ok missing_packages
  | package :: rest =>
      match import_ package with
      | Imported => find_missing import_ rest missing_packages
      | ImportError => find_missing import_ rest (missing_packages ++ [package])
      | ImportRaises e => Raise e
      end
  end.

Definition check_dependencies (import_ : str -> import_outcome)
  : list setup_event * result bool :=
  match find_missing import_ required_packages [] with
  | Raise e => ([], Raise e)
  | Ok [] => ([], Ok true)
  | Ok missing_packages =>
      ([Dep_error_header]
       ++ map Dep_error_package missing_packages
       ++ [Dep_info_install;
           Dep_code (lit "pip install " ++ join (lit " ") missing_packages)],
       Ok false)
  end.

(** The third-party modules the file imports when it is loaded (lines 1
    and 11-14), in order. *)
Definition module_imports : list str :=
  [lit "streamlit"; lit "speech_recognition"; lit "pydub";
   lit "pydub.silence"; lit "moviepy.editor"].

(** How a start of the script ends before the page is drawn. *)
Inductive start_outcome : Type :=
| Load_fails (module : str) (o : import_outcome)
| Check_raises (e : exn)
| Check_fails (shown : list setup_event)
| App_runs.

(** The first module of a list whose import does not succeed. *)
Fixpoint first_failure (import_ : str -> import_outcome) (modules : list str)
  : option (str * import_outcome) :=
  match modules with
  | [] => None
  | m :: rest =>
      match import_ m with
      | Imported => first_failure import_ rest
      | o => Some (m, o)
      end
  end.

(** Running the file: the imports at its head, then lines 438-440.  One
    oracle [import_] answers both the imports at the head and the
    [__import__] calls of [check_dependencies]: a module that was imported
    stays imported for the rest of the run. *)
Definition entry_point (import_ : str -> import_outcome) : start_outcome :=
  match first_failure import_ module_imports with
  | Some (m, o) => Load_fails m o
  | None =>
      match check_dependencies import_ with
      | (_, Raise e) => Check_raises e
      | (shown, Ok false) => Check_fails shown
      | (_, Ok true) => App_runs
      end
  end.

(** The arguments after [sys.executable] of the two commands. *)
Definition pip_upgrade_args : list str :=
  [lit "-m"; lit "pip"; lit "install"; lit "--upgrade"; lit "pip"].

Definition pip_install_args : list str :=
  [lit "-m"; lit "pip"; lit "install"; lit "streamlit"; lit "SpeechRecognition";
   lit "pydub"; lit "moviepy"; lit "requests"].

(** Lines 252-261; [clicked] is what the sidebar button returns. *)
Definition install_requirements (clicked : bool) (run : list str -> run_outcome)
  : list setup_event * result unit :=
  if clicked then
    match run pip_upgrade_args with
    | Exit_zero =>
        match run pip_install_args with
        | Exit_zero =>
            ([Pip_run pip_upgrade_args; Pip_run pip_install_args; Install_success],
             Ok tt)
        | CalledProcessError e =>
            ([Pip_run pip_upgrade_args; Pip_run pip_install_args; Install_error e],
             Ok tt)
        | Run_raises e =>
            ([Pip_run pip_upgrade_args; Pip_run pip_install_args], Raise e)
        end
    | CalledProcessError e => ([Pip_run pip_upgrade_args; Install_error e], Ok tt)
    | Run_raises e => ([Pip_run pip_upgrade_args], Raise e)
    end
  else ([], Ok tt).

(** The import raised [ImportError]. *)
Definition is_import_error (o : import_outcome) : bool :=
  match o with ImportError => true | _ => false end.

(** The import raised something other than [ImportError]. *)
Definition import_crashes (o : import_outcome) : Prop :=
  exists e, o = ImportRaises e.

(* ===================================================================== *)
(** ** More vocabulary *)
(* ===================================================================== *)

(** [sep] occurs somewhere in [s]. *)
Definition contains (sep s : str) : Prop := exists a b, s = a ++ sep ++ b.

Definition period : char := 46%N.

(** No callback, or the one [main_app] passes. *)
Definition standard_callback (cb : option callback) : Prop :=
  cb = None \/ cb = Some update_progress.

(** Every event of the trace satisfies [P]. *)
Definition trace_all {A : Type} (P : event -> Prop) (m : M A) : Prop :=
  Forall P (trace m).

Definition progress_value (e : event) : option Z :=
  match e with
  | St_progress pct _ => Some pct
  | _ => None
  end.

(** The percentages handed to the progress bar, in order. *)
Fixpoint progress_values (tr : list event) : list Z :=
  match tr with
  | [] => []
  | e :: tr' =>
      match progress_value e with
      | Some pct => pct :: progress_values tr'
      | None => progress_values tr'
      end
  end.

Definition is_sleep (e : event) : bool :=
  match e with Sleep => true | _ => false end.

Definition is_call_recognize (e : event) : bool :=
  match e with Call_recognize _ => true | _ => false end.

Definition is_error (e : event) : bool :=
  match e with St_error _ => true | _ => false end.

Definition sum_Z (l : list Z) : Z := fold_right Z.add 0 l.

(** The chunks [split_audio_into_chunks] returns. *)
Definition returned_chunks (w : World) (chunk_length_ms : Z)
  : list AudioSegment :=
  match outcome (split_audio_into_chunks w chunk_length_ms) with
  | Ok chunks => chunks
  | Raise _ => []
  end.

(** The percentage reported before chunk [i] of [total] (line 170). *)
Definition chunk_progress (total i : Z) : Z := 30 + (60 * i / total).


(** The two decimal digits of a number below one hundred. *)
Definition two_digits (x : Z) : str :=
  [Z.to_N (48 + x / 10); Z.to_N (48 + x mod 10)].


(* ===================================================================== *)
(** * Properties *)
(* ===================================================================== *)

(** Closed goals on concrete data: membership in a list, and [<=]. *)
Ltac decide_in := vm_compute; repeat (first [left; reflexivity | right]).
Ltac decide_le := vm_compute; discriminate.

(** ** Subtitle formatter *)

Example split_example :
  split (lit ". ") (lit "Hello world. This is a test. Goodbye.")
  = [lit "Hello world"; lit "This is a test"; lit "Goodbye."].
Proof. vm_compute. reflexivity. Qed.

Example format_examples :
  format_02d 0 = lit "00" /\ format_02d 7 = lit "07" /\ format_02d 30 = lit "30"
  /\ format_02d 123 = lit "123" /\ format_02d (-5) = lit "-5"
  /\ str_of_int 12 = lit "12".
Proof. vm_compute. repeat split. Qed.

(** C1. On the transcript "Hello world. This is a test. Goodbye." with chunk
    duration 30, [create_srt_content] emits three blocks numbered 1, 2, 3
    with the ranges 00:00:00,000 --> 00:00:30,000, 00:00:30,000 -->
    00:01:00,000 and 00:01:00,000 --> 00:01:30,000.  The text lines of the
    first two end with one period; the third fragment keeps the period the
    transcript ends with and gets a second one appended, so its text line
    is "Goodbye.." and ends with two periods. *)
Theorem create_srt_content_round_trip :
  create_srt_content (lit "Hello world. This is a test. Goodbye.") 30
  = lit "1" ++ nl ++ lit "00:00:00,000 --> 00:00:30,000" ++ nl
    ++ lit "Hello world." ++ nl ++ nl
    ++ lit "2" ++ nl ++ lit "00:00:30,000 --> 00:01:00,000" ++ nl
    ++ lit "This is a test." ++ nl ++ nl
    ++ lit "3" ++ nl ++ lit "00:01:00,000 --> 00:01:30,000" ++ nl
    ++ lit "Goodbye.." ++ nl ++ nl.
Proof. vm_compute. reflexivity. Qed.

Lemma srt_step_render (d : Z) (acc : str) (il : Z * str) :
  srt_step d acc il = acc ++ concat (map render_caption (captions_from d [il])).
Proof.
  destruct il as [i line]. unfold srt_step, captions_from.
  cbn [flat_map fst snd]. destruct (truthy (strip line)).
  - unfold render_caption, render_time, caption_of.
    cbn [seq_no start_s end_s text concat map app].
    change (lit ",000 --> ") with (lit ",000" ++ lit " --> ").
    rewrite app_nil_r. repeat rewrite <- app_assoc. reflexivity.
  - cbn [concat map app]. now rewrite app_nil_r.
Qed.

Lemma captions_from_cons (d : Z) (il : Z * str) (ils : list (Z * str)) :
  captions_from d (il :: ils) = captions_from d [il] ++ captions_from d ils.
Proof. unfold captions_from. simpl. now rewrite app_nil_r. Qed.

Lemma fold_srt_step (d : Z) (ils : list (Z * str)) (acc : str) :
  fold_left (srt_step d) ils acc
  = acc ++ concat (map render_caption (captions_from d ils)).
Proof.
  revert acc. induction ils as [| il ils IH]; intros acc.
  - simpl. now rewrite app_nil_r.
  - simpl fold_left. rewrite IH, (captions_from_cons d il ils), srt_step_render.
    rewrite map_app, concat_app, app_assoc. reflexivity.
Qed.

(** Which blocks [captions_from] holds, by position in the fragment list. *)
Lemma in_captions_from (d s : Z) (l : list str) (c : caption) :
  In c (captions_from d (enumerate_from s l)) <->
  exists n line, nth_error l n = Some line /\ strip line <> []
                 /\ c = caption_of d (s + Z.of_nat n) line.
Proof.
  revert s. induction l as [| x l IH]; intros s.
  - simpl. split; [tauto |]. intros (n & line & H & _). now destruct n.
  - simpl enumerate_from.
    rewrite (captions_from_cons d (s, x)), in_app_iff, IH.
    unfold captions_from. simpl. split.
    + intros [H | (n & line & H1 & H2 & H3)].
      * destruct (strip x) eqn:E; simpl in H; [tauto |].
        destruct H as [H | []]. exists 0%nat, x. simpl.
        rewrite Z.add_0_r, E. repeat split; congruence.
      * exists (S n), line. simpl. repeat split; auto.
        rewrite H3. f_equal. lia.
    + intros (n & line & H1 & H2 & H3). destruct n as [| n].
      * simpl in H1. injection H1 as ->. left.
        destruct (strip line) eqn:E; [congruence |]. simpl.
        left. rewrite H3, Z.add_0_r. reflexivity.
      * right. exists n, line. simpl in H1. repeat split; auto.
        rewrite H3. f_equal. lia.
Qed.

Lemma adjacent_map {A B : Type} (f : A -> B) (R : B -> B -> Prop) (l : list A) :
  adjacent (fun a b => R (f a) (f b)) l -> adjacent R (map f l).
Proof.
  induction l as [| a l IH]; [simpl; auto |].
  destruct l as [| b t]; [simpl; auto |].
  intros [H1 H2]. split; [exact H1 | apply IH, H2].
Qed.

(** A list of integers each one more than the one before is an interval. *)
Lemma adjacent_succ_interval (l : list Z) (a : Z) :
  adjacent (fun x y => y = x + 1) (a :: l) ->
  forall y, In y (a :: l) <-> a <= y < a + len (a :: l).
Proof.
  revert a. induction l as [| b t IH]; intros a H y.
  - unfold len. simpl. lia.
  - destruct H as [-> H]. specialize (IH _ H y).
    change (In y (a :: (a + 1) :: t)) with (a = y \/ In y ((a + 1) :: t)).
    rewrite IH. unfold len. simpl length. lia.
Qed.

Lemma adjacent_succ_between (l : list Z) (x y z : Z) :
  adjacent (fun a b => b = a + 1) l ->
  In x l -> In z l -> x <= y <= z -> In y l.
Proof.
  destruct l as [| a l]; [simpl; tauto |]. intros H Hx Hz Hy.
  apply (adjacent_succ_interval l a H). 
  apply (adjacent_succ_interval l a H) in Hx, Hz. lia.
Qed.

Lemma contiguous_consecutive (d s : Z) (l : list str) :
  d <> 0 ->
  contiguous_ranges (captions_from d (enumerate_from s l)) ->
  consecutive_numbers (captions_from d (enumerate_from s l)).
Proof.
  intros Hd. unfold contiguous_ranges, consecutive_numbers.
  assert (Hin : forall c, In c (captions_from d (enumerate_from s l)) ->
                          exists i line, c = caption_of d i line).
  { intros c Hc. apply in_captions_from in Hc.
    destruct Hc as (n & line & _ & _ & ->). eauto. }
  revert Hin. generalize (captions_from d (enumerate_from s l)) as cs.
  induction cs as [| a cs IH]; [simpl; auto |].
  destruct cs as [| b t]; [simpl; auto |].
  intros Hin [H1 H2]. split.
  - destruct (Hin a (or_introl eq_refl)) as (i & la & ->).
    destruct (Hin b (or_intror (or_introl eq_refl))) as (j & lb & ->).
    simpl in *. nia.
  - apply IH; [| exact H2]. intros c Hc. apply Hin. now right.
Qed.

(** C10 (amended). The output of [create_srt_content] is exactly the
    rendering, in order, of one block per fragment of
    [transcript.split('. ')] that is not blank: the fragment at index [i]
    gets sequence number [i + 1], the range from [i * chunk_duration] to
    [(i + 1) * chunk_duration] and as text the stripped fragment with one
    period appended.  A blank fragment emits no block but still consumes
    its index, so no block carries its number.  Whenever a blank fragment
    lies between two fragments that are not blank, the emitted sequence
    numbers are not consecutive and, for a non-zero chunk duration, the
    time ranges are not contiguous. *)
Theorem create_srt_content_blocks (transcript : str) (chunk_duration : Z) :
  let lines := split (lit ". ") transcript in
  let blocks := captions transcript chunk_duration in
  create_srt_content transcript chunk_duration
  = concat (map render_caption blocks)
  /\ (forall c, In c blocks <->
        exists i line, nth_error lines i = Some line /\ strip line <> []
                       /\ c = caption_of chunk_duration (Z.of_nat i) line)
  /\ (forall j line, nth_error lines j = Some line -> strip line = [] ->
        forall c, In c blocks -> seq_no c <> Z.of_nat j + 1)
  /\ (forall i j k li lj lk,
        (i < j < k)%nat ->
        nth_error lines i = Some li -> strip li <> [] ->
        nth_error lines j = Some lj -> strip lj = [] ->
        nth_error lines k = Some lk -> strip lk <> [] ->
        ~ consecutive_numbers blocks
        /\ (chunk_duration <> 0 -> ~ contiguous_ranges blocks)).
Proof.
  intros lines blocks.
  assert (Hin : forall c, In c blocks <->
        exists i line, nth_error lines i = Some line /\ strip line <> []
                       /\ c = caption_of chunk_duration (Z.of_nat i) line).
  { intros c. unfold blocks, captions, enumerate.
    rewrite in_captions_from. reflexivity. }
  assert (Hblank : forall j line, nth_error lines j = Some line ->
        strip line = [] -> forall c, In c blocks -> seq_no c <> Z.of_nat j + 1).
  { intros j line Hj Hs c Hc Hn. apply Hin in Hc.
    destruct Hc as (i & line' & Hi & Hs' & ->). simpl in Hn.
    assert (i = j) by lia. subst i. congruence. }
  assert (Hgap : forall i j k li lj lk,
        (i < j < k)%nat ->
        nth_error lines i = Some li -> strip li <> [] ->
        nth_error lines j = Some lj -> strip lj = [] ->
        nth_error lines k = Some lk -> strip lk <> [] ->
        ~ consecutive_numbers blocks).
  { intros i j k li lj lk Hijk Hi Hli Hj Hlj Hk Hlk Hcons.
    apply (adjacent_map seq_no (fun x y => y = x + 1)) in Hcons.
    assert (Hmem : In (Z.of_nat j + 1) (map seq_no blocks)).
    { apply (adjacent_succ_between _ (Z.of_nat i + 1) _ (Z.of_nat k + 1) Hcons).
      - apply in_map_iff. exists (caption_of chunk_duration (Z.of_nat i) li).
        split; [reflexivity |]. apply Hin. eauto.
      - apply in_map_iff. exists (caption_of chunk_duration (Z.of_nat k) lk).
        split; [reflexivity |]. apply Hin. eauto.
      - lia. }
    apply in_map_iff in Hmem. destruct Hmem as (c & Hc1 & Hc2).
    exact (Hblank j lj Hj Hlj c Hc2 Hc1). }
  split; [| split; [exact Hin | split; [exact Hblank |]]].
  - unfold create_srt_content, blocks, captions. now rewrite fold_srt_step.
  - intros i j k li lj lk Hijk Hi Hli Hj Hlj Hk Hlk.
    pose proof (Hgap i j k li lj lk Hijk Hi Hli Hj Hlj Hk Hlk) as Hnc.
    split; [exact Hnc |]. intros Hd Hcont. apply Hnc.
    unfold blocks, captions, enumerate in *.
    now apply contiguous_consecutive.
Qed.

(** The amended C10 at the transcript "a. . b": the split is "a", "", "b",
    the blank fragment takes number 2, and blocks 1 and 3 are emitted. *)
Lemma create_srt_content_blocks_witness :
  create_srt_content (lit "a. . b") 30
  = lit "1" ++ nl ++ lit "00:00:00,000 --> 00:00:30,000" ++ nl
    ++ lit "a." ++ nl ++ nl
    ++ lit "3" ++ nl ++ lit "00:01:00,000 --> 00:01:30,000" ++ nl
    ++ lit "b." ++ nl ++ nl
  /\ ~ consecutive_numbers (captions (lit "a. . b") 30)
  /\ ~ contiguous_ranges (captions (lit "a. . b") 30).
Proof.
  split; [vm_compute; reflexivity |].
  destruct (create_srt_content_blocks (lit "a. . b") 30) as (_ & _ & _ & H).
  destruct (H 0%nat 1%nat 2%nat (lit "a") (lit "") (lit "b")) as [H1 H2];
    try (vm_compute; reflexivity); try (vm_compute; discriminate).
  - lia.
  - split; [exact H1 | apply H2; discriminate].
Defined.

(** C10 as stated fails on the transcript "a. " (letter, period, space):
    its split "a", "" contains a blank fragment, yet the one emitted block
    is numbered 1 and covers 0 to 30 seconds, so the numbering is
    consecutive and the ranges contiguous. *)
Lemma blank_fragment_counterexample :
  has_blank_fragment (lit "a. ")
  /\ create_srt_content (lit "a. ") 30
     = lit "1" ++ nl ++ lit "00:00:00,000 --> 00:00:30,000" ++ nl
       ++ lit "a." ++ nl ++ nl
  /\ consecutive_numbers (captions (lit "a. ") 30)
  /\ contiguous_ranges (captions (lit "a. ") 30).
Proof.
  split; [| split; [vm_compute; reflexivity | split; vm_compute; exact I]].
  exists 1%nat, []. split; vm_compute; reflexivity.
Qed.

(** ** Laws of the effect combinators *)

Lemma outcome_bind {A B : Type} (m : M A) (f : A -> M B) :
  outcome (bind m f)
  = match outcome m with Ok a => outcome (f a) | Raise e => Raise e end.
Proof.
  destruct m as [l [a | e]]; [| reflexivity].
  unfold bind, outcome. simpl. now destruct (f a).
Qed.

Lemma trace_bind {A B : Type} (m : M A) (f : A -> M B) :
  trace (bind m f)
  = match outcome m with
    | Ok a => trace m ++ trace (f a)
    | Raise _ => trace m
    end.
Proof.
  destruct m as [l [a | e]]; [| reflexivity].
  unfold bind, trace, outcome. simpl. now destruct (f a).
Qed.

Lemma outcome_try_except {A : Type} (m : M A) (h : exn -> M A) :
  outcome (try_except m h)
  = match outcome m with Ok a => Ok a | Raise e => outcome (h e) end.
Proof.
  destruct m as [l [a | e]]; [reflexivity |].
  unfold try_except, outcome. simpl. now destruct (h e).
Qed.

Lemma trace_try_except {A : Type} (m : M A) (h : exn -> M A) :
  trace (try_except m h)
  = match outcome m with
    | Ok _ => trace m
    | Raise e => trace m ++ trace (h e)
    end.
Proof.
  destruct m as [l [a | e]]; [reflexivity |].
  unfold try_except, trace, outcome. simpl. now destruct (h e).
Qed.

Lemma outcome_try_finally {A : Type} (m : M A) (fin : M unit) :
  outcome (try_finally m fin)
  = match outcome fin with Ok _ => outcome m | Raise e => Raise e end.
Proof. destruct m as [l r], fin as [l' [u | e]]; reflexivity. Qed.

Lemma trace_try_finally {A : Type} (m : M A) (fin : M unit) :
  trace (try_finally m fin) = trace m ++ trace fin.
Proof. destruct m as [l r], fin as [l' [u | e]]; reflexivity. Qed.

Lemma bind_returns {A B : Type} (m : M A) (f : A -> M B) (b : B) :
  outcome (bind m f) = Ok b ->
  exists a, outcome m = Ok a /\ outcome (f a) = Ok b.
Proof.
  rewrite outcome_bind. destruct (outcome m) as [a | e]; [eauto | discriminate].
Qed.

Lemma M_eta {A : Type} (m : M A) : m = (trace m, outcome m).
Proof. now destruct m. Qed.

(** ** Word and character statistics *)

Lemma split_ws_go_length (s acc : str) :
  length (split_ws_go s acc)
  = if truthy acc then S (count_tokens false s) else count_tokens true s.
Proof.
  revert acc. induction s as [| c s IH]; intros acc; simpl.
  - now destruct (truthy acc).
  - destruct (isspace c).
    + destruct (truthy acc); simpl; now rewrite IH.
    + rewrite IH. simpl. now destruct (truthy acc).
Qed.

Lemma split_ws_go_concat (s acc : str) :
  concat (split_ws_go s acc)
  = rev acc ++ filter (fun c => negb (isspace c)) s.
Proof.
  revert acc. induction s as [| c s IH]; intros acc; simpl.
  - destruct acc; simpl; now rewrite ?app_nil_r.
  - destruct (isspace c); simpl.
    + destruct acc as [| a acc]; simpl; rewrite IH; simpl; now rewrite ?app_nil_r.
    + rewrite IH. simpl. now rewrite <- app_assoc.
Qed.

Lemma split_ws_go_tokens (s acc : str) :
  Forall (fun c => isspace c = false) acc ->
  Forall (fun tok => tok <> [] /\ Forall (fun c => isspace c = false) tok)
         (split_ws_go s acc).
Proof.
  revert acc. induction s as [| c s IH]; intros acc Hacc; simpl.
  - destruct acc as [| a acc]; simpl; constructor; [| constructor]. split.
    + intros H. apply (f_equal (@length _)) in H.
      rewrite length_app in H. simpl in H. lia.
    + apply Forall_app. split; [| inversion Hacc; auto].
      apply Forall_rev. now inversion Hacc.
  - destruct (isspace c) eqn:E.
    + destruct acc as [| a acc]; simpl; [apply IH; constructor |].
      constructor; [| apply IH; constructor]. split.
      * intros H. apply (f_equal (@length _)) in H.
        rewrite length_app in H. simpl in H. lia.
      * apply Forall_app. split; [| inversion Hacc; auto].
        apply Forall_rev. now inversion Hacc.
    + apply IH. now constructor.
Qed.

Lemma filter_partition_length {A : Type} (p : A -> bool) (l : list A) :
  (length (filter p l) + length (filter (fun x => negb (p x)) l)
   = length l)%nat.
Proof.
  induction l as [| x l IH]; simpl; [reflexivity |].
  destruct (p x); simpl; lia.
Qed.

(** ** Stages that absorb their own failures *)

Lemma extract_audio_from_video_spec (w : World) :
  extract_audio_from_video w
  = match clip w with
    | ClipNoAudio => ([Call_extract; St_error MsgNoAudioTrack], Ok false)
    | ClipWritten => ([Call_extract], Ok true)
    | ClipRaises e =>
        ([Call_extract; St_error (MsgExtractError (exn_str e))], Ok false)
    end.
Proof. unfold extract_audio_from_video. now destruct (clip w). Qed.

Lemma split_audio_into_chunks_returns (w : World) (chunk_length_ms : Z) :
  exists chunks, outcome (split_audio_into_chunks w chunk_length_ms) = Ok chunks.
Proof.
  unfold split_audio_into_chunks. rewrite outcome_try_except.
  match goal with |- context [outcome ?m] => destruct (outcome m) end;
    eexists; reflexivity.
Qed.

Lemma transcribe_audio_chunk_spec (w : World) (k : nat)
  (audio_chunk : AudioSegment) (language : str) :
  transcribe_audio_chunk w k audio_chunk language
  = match recognize w k audio_chunk language with
    | Ok text => ([Call_recognize k], Ok text)
    | Raise UnknownValueError => ([Call_recognize k], Ok [])
    | Raise (RequestError msg) =>
        ([Call_recognize k; St_warning (MsgServiceError msg)], Ok [])
    | Raise e =>
        ([Call_recognize k; St_warning (MsgChunkError (exn_str e))], Ok [])
    end.
Proof.
  unfold transcribe_audio_chunk.
  destruct (recognize w k audio_chunk language) as [text | [| msg | msg | msg]];
    reflexivity.
Qed.

Lemma transcribe_audio_chunk_returns (w : World) (k : nat)
  (audio_chunk : AudioSegment) (language : str) :
  outcome (transcribe_audio_chunk w k audio_chunk language)
  = Ok (returned_text (transcribe_audio_chunk w k audio_chunk language)).
Proof.
  unfold returned_text. rewrite transcribe_audio_chunk_spec.
  destruct (recognize w k audio_chunk language) as [text | [| msg | msg | msg]];
    reflexivity.
Qed.

Lemma cleanup_returns (w : World) : outcome (cleanup w) = Ok tt.
Proof.
  unfold cleanup. rewrite outcome_try_except.
  match goal with |- context [outcome ?m] => destruct (outcome m) as [[] | e] end;
    reflexivity.
Qed.

Lemma report_returns (cb : option callback) (pct : Z) (msg : progress_msg) :
  quiet cb -> outcome (report cb pct msg) = Ok tt.
Proof. destruct cb as [cb |]; simpl; auto. Qed.

Lemma stripped_nonempty_cons (x : str) (l : list str) :
  stripped_nonempty (x :: l)
  = if truthy (strip x) then strip x :: stripped_nonempty l
    else stripped_nonempty l.
Proof. reflexivity. Qed.

(** The loop returns the parts it started with followed by the stripped
    non-empty texts of the chunks it went through. *)
Lemma transcribe_loop_returns (w : World) (language : str)
  (cb : option callback) (total : Z) (ichunks : list (Z * AudioSegment))
  (parts : list str) :
  quiet cb ->
  outcome (transcribe_loop w language cb total ichunks parts)
  = Ok (parts ++ stripped_nonempty
          (map (fun ic => returned_text
                  (transcribe_audio_chunk w (Z.to_nat (fst ic)) (snd ic) language))
               ichunks)).
Proof.
  intros Hq. revert parts. induction ichunks as [| [i chunk] rest IH]; intros parts.
  - simpl. now rewrite app_nil_r.
  - cbn [transcribe_loop map fst snd].
    rewrite outcome_bind, (report_returns _ _ _ Hq).
    rewrite outcome_bind, transcribe_audio_chunk_returns.
    rewrite outcome_bind. cbn [emit outcome snd].
    rewrite IH, stripped_nonempty_cons.
    destruct (truthy (strip _)); [| reflexivity].
    now rewrite <- app_assoc.
Qed.

(** What [transcribe_video] returns once the audio is extracted and
    segmented, for a callback that returns normally. *)
Lemma transcribe_video_returns (w : World) (f : UploadedFile) (language : str)
  (chunk_duration : Z) (cb : option callback) (chunks : list AudioSegment) :
  quiet cb ->
  clip w = ClipWritten ->
  outcome (split_audio_into_chunks w (chunk_duration * 1000)) = Ok chunks ->
  chunks <> [] ->
  let transcript :=
    join (lit " ") (stripped_nonempty (segment_texts w language chunks)) in
  outcome (transcribe_video w f language chunk_duration cb)
  = Ok (if truthy (strip transcript) then Some transcript else None).
Proof.
  intros Hq Hclip Hsplit Hne transcript.
  unfold transcribe_video.
  rewrite outcome_try_finally, cleanup_returns, outcome_try_except.
  rewrite outcome_bind, (report_returns _ _ _ Hq).
  rewrite outcome_bind, extract_audio_from_video_spec, Hclip.
  cbn [outcome snd negb].
  rewrite outcome_bind, (report_returns _ _ _ Hq).
  rewrite outcome_bind, Hsplit.
  destruct chunks as [| c chunks]; [congruence |].
  rewrite outcome_bind, (transcribe_loop_returns _ _ _ _ _ _ Hq).
  rewrite outcome_bind, (report_returns _ _ _ Hq).
  rewrite outcome_bind, (report_returns _ _ _ Hq).
  cbn [app]. fold (segment_texts w language (c :: chunks)). fold transcript.
  now destruct (truthy (strip transcript)).
Qed.

(** A transcript that [transcribe_video] returns is not blank. *)
Lemma transcribe_video_some (w : World) (f : UploadedFile) (language : str)
  (chunk_duration : Z) (cb : option callback) (t : str) :
  outcome (transcribe_video w f language chunk_duration cb) = Ok (Some t) ->
  truthy (strip t) = true.
Proof.
  unfold transcribe_video.
  rewrite outcome_try_finally, cleanup_returns, outcome_try_except.
  match goal with |- context [outcome ?m] => destruct (outcome m) eqn:E end;
    [| discriminate].
  intros [= ->].
  apply bind_returns in E. destruct E as (u & _ & E).
  apply bind_returns in E. destruct E as (b & _ & E).
  destruct (negb b); [discriminate |].
  apply bind_returns in E. destruct E as (u' & _ & E).
  apply bind_returns in E. destruct E as (chunks & _ & E).
  destruct chunks as [| c chunks]; [discriminate |].
  apply bind_returns in E. destruct E as (parts & _ & E).
  apply bind_returns in E. destruct E as (u1 & _ & E).
  apply bind_returns in E. destruct E as (u2 & _ & E).
  cbn [ret outcome snd] in E.
  destruct (truthy (strip (join (lit " ") parts))) eqn:Et; [| discriminate].
  injection E as <-. exact Et.
Qed.

(** ** The page *)

Lemma str_eqb_eq (a b : str) : str_eqb a b = true <-> a = b.
Proof.
  revert b. induction a as [| x a IH]; intros [| y b]; simpl;
    try (split; [discriminate | discriminate]); [tauto |].
  rewrite andb_true_iff, N.eqb_eq, IH. split.
  - intros [-> ->]. reflexivity.
  - intros [= -> ->]. auto.
Qed.

Lemma str_in_In (x : str) (l : list str) : str_in x l = true <-> In x l.
Proof.
  unfold str_in. rewrite existsb_exists. split.
  - intros (y & Hy & He). apply str_eqb_eq in He. now subst.
  - intros H. exists x. split; [exact H | now apply str_eqb_eq].
Qed.

(** [main_app] on a file that passes validation, start button pressed. *)
Lemma main_app_run (w : World) (f : UploadedFile) (language : str)
  (chunk_duration : Z) :
  passes_validation w f ->
  main_app w (Some f) true language chunk_duration
  = (emit (St_success (MsgFileLoaded (name f))) ;;
     emit (St_info (MsgFileSize (len (getvalue f)))) ;;
     transcript <-
       transcribe_video w f language chunk_duration (Some update_progress) ;;
     match transcript with
     | Some (c :: t) =>
         emit (St_text_area (c :: t)) ;;
         emit (St_download TxtFile (c :: t)) ;;
         emit (St_download SrtFile (create_srt_content (c :: t) chunk_duration)) ;;
         emit (St_metric WordCount (len (split_ws (c :: t)))) ;;
         emit (St_metric CharCount (len (c :: t))) ;;
         emit (St_metric ProcessingDuration chunk_duration)
     | _ => emit (St_error MsgNoTextFound)
     end).
Proof.
  intros [Hsize Hext]. unfold main_app.
  replace (MAX_FILE_SIZE <? len (getvalue f)) with false
    by (symmetry; apply Z.ltb_ge; exact Hsize).
  apply str_in_In in Hext. unfold extension in Hext. rewrite Hext.
  reflexivity.
Qed.

Lemma split_ws_length (t : str) : len (split_ws t) = token_count t.
Proof. unfold len, split_ws, token_count. now rewrite split_ws_go_length. Qed.

(** C8. The word count [main_app] displays is the number of
    whitespace-delimited tokens of the transcript and the character count
    is its length, whitespace included: the tokens of [transcript.split()]
    are non-empty, free of whitespace and make up the transcript without its
    whitespace, and the length is the whitespace characters plus the
    characters of the tokens. *)
Theorem statistics_of_transcript (w : World) (f : UploadedFile)
  (language : str) (chunk_duration : Z) (t : str) :
  (passes_validation w f ->
   outcome (transcribe_video w f language chunk_duration (Some update_progress))
   = Ok (Some t) ->
   exists shown,
     trace (main_app w (Some f) true language chunk_duration)
     = shown ++ [St_metric WordCount (token_count t);
                 St_metric CharCount (len t);
                 St_metric ProcessingDuration chunk_duration])
  /\ len (split_ws t) = token_count t
  /\ Forall (fun tok => tok <> [] /\ Forall (fun c => isspace c = false) tok)
            (split_ws t)
  /\ concat (split_ws t) = filter (fun c => negb (isspace c)) t
  /\ len t = whitespace_count t + total_len (split_ws t).
Proof.
  assert (Hcat : concat (split_ws t) = filter (fun c => negb (isspace c)) t).
  { unfold split_ws. now rewrite split_ws_go_concat. }
  split; [| split; [apply split_ws_length | split; [| split; [exact Hcat |]]]].
  - intros Hvalid Hrun. rewrite (main_app_run _ _ _ _ Hvalid).
    pose proof (transcribe_video_some _ _ _ _ _ _ Hrun) as Hs.
    destruct t as [| c t]; [discriminate |].
    rewrite (M_eta (transcribe_video _ _ _ _ _)), Hrun.
    rewrite <- split_ws_length.
    exists ([St_success (MsgFileLoaded (name f));
             St_info (MsgFileSize (len (getvalue f)))]
            ++ trace (transcribe_video w f language chunk_duration
                                       (Some update_progress))
            ++ [St_text_area (c :: t); St_download TxtFile (c :: t);
                St_download SrtFile (create_srt_content (c :: t) chunk_duration)]).
    unfold trace. simpl. repeat rewrite <- app_assoc. reflexivity.
  - unfold split_ws. apply split_ws_go_tokens. constructor.
  - unfold whitespace_count, total_len, len. rewrite Hcat.
    rewrite <- (filter_partition_length isspace t). lia.
Qed.


(** C8 on a run whose single segment is heard as " hello  big world ":
    three words, sixteen characters. *)
Lemma statistics_of_transcript_witness :
  exists shown,
    trace (main_app (example_world [1; 2; 3] (Ok [[1; 2; 3]])
                                  [Ok (lit " hello  big world ")])
                    (Some example_file) true (lit "en-US") 30)
    = shown ++ [St_metric WordCount 3; St_metric CharCount 16;
                St_metric ProcessingDuration 30].
Proof.
  apply (proj1 (statistics_of_transcript
                  (example_world [1; 2; 3] (Ok [[1; 2; 3]])
                                  [Ok (lit " hello  big world ")])
                  example_file (lit "en-US") 30 (lit "hello  big world"))).
  - split; [decide_le | decide_in].
  - vm_compute. reflexivity.
Defined.

(** ** Transcript assembly *)

Lemma lstrip_suffix (s : str) : exists v, s = v ++ lstrip s.
Proof.
  induction s as [| c s [v IH]]; [now exists [] |]. simpl.
  destruct (isspace c); [| now exists []].
  exists (c :: v). simpl. now f_equal.
Qed.

Lemma lstrip_starts_clean (s : str) : starts_clean (lstrip s).
Proof.
  induction s as [| c s IH]; simpl; [exact I |].
  destruct (isspace c) eqn:E; [exact IH | exact E].
Qed.

Lemma lstrip_clean (s : str) : starts_clean s -> lstrip s = s.
Proof. destruct s as [| c s]; simpl; [reflexivity |]. now intros ->. Qed.

Lemma rstrip_prefix (s : str) : exists v, s = rstrip s ++ v.
Proof.
  unfold rstrip. destruct (lstrip_suffix (rev s)) as [v Hv].
  exists (rev v). rewrite <- rev_app_distr, <- Hv. now rewrite rev_involutive.
Qed.

Lemma rstrip_ends_clean (s : str) : ends_clean (rstrip s).
Proof.
  unfold ends_clean, rstrip. rewrite rev_involutive. apply lstrip_starts_clean.
Qed.

Lemma rstrip_clean (s : str) : ends_clean s -> rstrip s = s.
Proof.
  unfold ends_clean, rstrip. intros H. rewrite (lstrip_clean _ H).
  apply rev_involutive.
Qed.

Lemma strip_starts_clean (s : str) : starts_clean (strip s).
Proof.
  unfold strip. destruct (rstrip_prefix (lstrip s)) as [v Hv].
  pose proof (lstrip_starts_clean s) as H. rewrite Hv in H.
  destruct (rstrip (lstrip s)); [exact I | exact H].
Qed.

Lemma strip_ends_clean (s : str) : ends_clean (strip s).
Proof. apply rstrip_ends_clean. Qed.

Lemma strip_clean (s : str) : starts_clean s -> ends_clean s -> strip s = s.
Proof.
  intros H1 H2. unfold strip. rewrite (lstrip_clean _ H1). now apply rstrip_clean.
Qed.

Lemma starts_clean_app (p q : str) : p <> [] -> starts_clean p -> starts_clean (p ++ q).
Proof. destruct p; [congruence | auto]. Qed.

Lemma ends_clean_app (p q : str) : q <> [] -> ends_clean q -> ends_clean (p ++ q).
Proof.
  unfold ends_clean. intros Hq H. rewrite rev_app_distr.
  apply starts_clean_app; [| exact H].
  intros E. apply Hq. rewrite <- (rev_involutive q), E. reflexivity.
Qed.

Lemma join_cons2 (sep p q : str) (rest : list str) :
  join sep (p :: q :: rest) = p ++ sep ++ join sep (q :: rest).
Proof. reflexivity. Qed.

Lemma join_nonempty (sep p : str) (rest : list str) :
  p <> [] -> join sep (p :: rest) <> [].
Proof.
  intros Hp. destruct rest as [| q rest]; [exact Hp |].
  rewrite join_cons2. destruct p; [congruence | discriminate].
Qed.

(** Joining non-empty parts with clean ends gives clean ends. *)
Lemma join_clean (sep : str) (parts : list str) :
  Forall (fun p => p <> [] /\ starts_clean p /\ ends_clean p) parts ->
  starts_clean (join sep parts) /\ ends_clean (join sep parts).
Proof.
  induction parts as [| p rest IH]; intros H; [split; exact I |].
  inversion H as [| ? ? (Hp & Hs & He) Hrest]; subst.
  destruct rest as [| q rest]; [split; assumption |].
  rewrite join_cons2. destruct (IH Hrest) as [_ IHe]. split.
  - now apply starts_clean_app.
  - rewrite app_assoc. apply ends_clean_app; [| exact IHe].
    apply join_nonempty. now inversion Hrest as [| ? ? (Hq & _) _].
Qed.

Lemma stripped_nonempty_clean (texts : list str) :
  Forall (fun p => p <> [] /\ starts_clean p /\ ends_clean p)
         (stripped_nonempty texts).
Proof.
  unfold stripped_nonempty. apply Forall_forall. intros p Hp.
  apply filter_In in Hp. destruct Hp as [Hin Ht].
  apply in_map_iff in Hin. destruct Hin as (x & <- & _).
  split; [| split].
  - intros E. rewrite E in Ht. discriminate.
  - apply strip_starts_clean.
  - apply strip_ends_clean.
Qed.

Lemma space_isspace : isspace space = true.
Proof. reflexivity. Qed.

Lemma has_double_space_spec (s : str) :
  double_space s <-> has_double_space s = true.
Proof.
  split.
  - intros (a & b & ->). induction a as [| x a IH]; simpl.
    + reflexivity.
    + destruct (a ++ space :: space :: b) eqn:E; [now destruct a |].
      rewrite IH. apply orb_true_r.
  - induction s as [| x s IH]; [discriminate |].
    destruct s as [| y s]; [discriminate |].
    cbn [has_double_space]. intros H. apply orb_true_iff in H.
    destruct H as [H | H].
    + apply andb_true_iff in H. destruct H as [H1 H2].
      apply N.eqb_eq in H1, H2. subst. now exists [], s.
    + destruct (IH H) as (a & b & E). exists (x :: a), b. simpl. now rewrite E.
Qed.

(** A space between a part that ends clean and a part that starts clean
    creates no double space. *)
Lemma has_double_space_glue (p q : str) :
  p <> [] -> ends_clean p -> q <> [] -> starts_clean q ->
  has_double_space p = false -> has_double_space q = false ->
  has_double_space (p ++ space :: q) = false.
Proof.
  intros Hp He Hq Hs Hdp Hdq.
  induction p as [| x p IH]; [congruence |].
  destruct p as [| y p].
  - destruct q as [| z q]; [congruence |].
    unfold ends_clean in He. simpl in He, Hs.
    assert (Hx : (x =? space)%N = false).
    { destruct (N.eqb_spec x space); [subst; discriminate | reflexivity]. }
    assert (Hz : (z =? space)%N = false).
    { destruct (N.eqb_spec z space); [subst; discriminate | reflexivity]. }
    change (has_double_space ([x] ++ space :: z :: q))
      with (((x =? space)%N && (space =? space)%N)
            || (((space =? space)%N && (z =? space)%N)
                || has_double_space (z :: q))).
    rewrite Hx, Hz, Hdq. reflexivity.
  - cbn [has_double_space] in Hdp. apply orb_false_iff in Hdp.
    destruct Hdp as [H1 H2].
    change ((x :: y :: p) ++ space :: q) with (x :: (y :: p) ++ space :: q).
    change (has_double_space (x :: (y :: p) ++ space :: q))
      with (((x =? space)%N && (y =? space)%N)
            || has_double_space ((y :: p) ++ space :: q)).
    rewrite H1. simpl orb. apply IH; [discriminate | | exact H2].
    unfold ends_clean in *. simpl in He. simpl rev.
    destruct (rev p ++ [y]) eqn:E; [now destruct (rev p) | exact He].
Qed.

Lemma join_no_double_space (parts : list str) :
  Forall (fun p => p <> [] /\ starts_clean p /\ ends_clean p) parts ->
  Forall (fun p => has_double_space p = false) parts ->
  has_double_space (join [space] parts) = false.
Proof.
  induction parts as [| p rest IH]; intros Hc Hd; [reflexivity |].
  inversion Hc as [| ? ? (Hp & Hs & He) Hrest]; subst.
  inversion Hd as [| ? ? Hdp Hdrest]; subst.
  destruct rest as [| q rest]; [exact Hdp |].
  rewrite join_cons2. apply has_double_space_glue; auto.
  - apply join_nonempty. now inversion Hrest as [| ? ? (Hq & _) _].
  - apply (join_clean [space] (q :: rest) Hrest).
Qed.

(** C2 (amended). When the audio is extracted and segmented, the
    transcript [transcribe_video] assembles is the join, by single spaces and
    in segment order, of the stripped non-empty segment transcripts (and is
    returned unless it is empty).  It has no leading and no trailing space.
    The join itself adds no double space: the transcript contains two
    consecutive spaces only if a stripped segment transcript already does. *)
Theorem assembled_transcript (w : World) (f : UploadedFile) (language : str)
  (chunk_duration : Z) (cb : option callback) (chunks : list AudioSegment) :
  quiet cb ->
  clip w = ClipWritten ->
  outcome (split_audio_into_chunks w (chunk_duration * 1000)) = Ok chunks ->
  chunks <> [] ->
  let texts := segment_texts w language chunks in
  let transcript := join (lit " ") (stripped_nonempty texts) in
  outcome (transcribe_video w f language chunk_duration cb)
  = Ok (if truthy transcript then Some transcript else None)
  /\ ~ leading_space transcript
  /\ ~ trailing_space transcript
  /\ ((forall entry, In entry texts -> ~ double_space (strip entry)) ->
      ~ double_space transcript).
Proof.
  intros Hq Hclip Hsplit Hne texts transcript.
  destruct (join_clean (lit " ") _ (stripped_nonempty_clean texts)) as [Hs He].
  fold transcript in Hs, He.
  split; [| split; [| split]].
  - rewrite (transcribe_video_returns w f language chunk_duration cb chunks
               Hq Hclip Hsplit Hne).
    fold texts. fold transcript. now rewrite (strip_clean _ Hs He).
  - intros [t Ht]. rewrite Ht in Hs. simpl in Hs. discriminate.
  - intros [t Ht]. unfold ends_clean in He. rewrite Ht, rev_app_distr in He.
    simpl in He. discriminate.
  - intros Hentries Hd. apply has_double_space_spec in Hd.
    unfold transcript in Hd. change (lit " ") with [space] in Hd.
    rewrite join_no_double_space in Hd; [discriminate | |].
    + apply stripped_nonempty_clean.
    + apply Forall_forall. intros p Hp. unfold stripped_nonempty in Hp.
      apply filter_In in Hp. destruct Hp as [Hin _].
      apply in_map_iff in Hin. destruct Hin as (x & <- & Hx).
      destruct (has_double_space (strip x)) eqn:E; [| reflexivity].
      exfalso. apply (Hentries x Hx). now apply has_double_space_spec.
Qed.

(** The amended C2 on a run of three segments heard as "  one ", nothing
    and "two  ": the transcript is "one two". *)
Lemma assembled_transcript_witness :
  outcome (transcribe_video
             (example_world [1; 2; 3; 4; 5] (Ok [[1; 2]; [3; 4]; [5]])
                            [Ok (lit "  one "); Raise UnknownValueError;
                             Ok (lit "two  ")])
             example_file (lit "en-US") 30 None)
  = Ok (Some (lit "one two"))
  /\ ~ double_space (lit "one two").
Proof.
  destruct (assembled_transcript
              (example_world [1; 2; 3; 4; 5] (Ok [[1; 2]; [3; 4]; [5]])
                             [Ok (lit "  one "); Raise UnknownValueError;
                              Ok (lit "two  ")])
              example_file (lit "en-US") 30 None [[1; 2]; [3; 4]; [5]])
    as (H1 & _ & _ & H2).
  - exact I.
  - reflexivity.
  - vm_compute. reflexivity.
  - discriminate.
  - split; [exact H1 |]. apply H2. intros entry Hin Hd.
    apply has_double_space_spec in Hd.
    vm_compute in Hin.
    destruct Hin as [<- | [<- | [<- | []]]]; vm_compute in Hd; discriminate.
Defined.

(** C2 as stated fails on a run whose single segment is heard as "a  b"
    (two spaces inside): stripping leaves the inner spaces alone, so the
    returned transcript contains two consecutive spaces. *)
Lemma double_space_counterexample :
  segment_texts (example_world [1; 2; 3] (Ok [[1; 2; 3]]) [Ok (lit "a  b")])
                (lit "en-US") [[1; 2; 3]]
  = [lit "a  b"]
  /\ outcome (transcribe_video
                (example_world [1; 2; 3] (Ok [[1; 2; 3]]) [Ok (lit "a  b")])
                example_file (lit "en-US") 30 None)
     = Ok (Some (lit "a  b"))
  /\ double_space (lit "a  b").
Proof.
  split; [vm_compute; reflexivity | split; [vm_compute; reflexivity |]].
  exists (lit "a"), (lit "b"). reflexivity.
Qed.

(** Every finite sequence of texts is the sequence of segment transcripts
    of some run: the one in which the service answers with them in turn. *)
Lemma segment_texts_example_from (audio : AudioSegment)
  (silence : result (list AudioSegment)) (language : str)
  (chunks : list AudioSegment) :
  forall (texts heard : list str),
    length chunks = length texts ->
    map (fun ic => returned_text
           (transcribe_audio_chunk
              (example_world audio silence (map Ok (heard ++ texts)))
              (Z.to_nat (fst ic)) (snd ic) language))
        (enumerate_from (Z.of_nat (length heard)) chunks)
    = texts.
Proof.
  induction chunks as [| c chunks IH]; intros texts heard Hlen.
  - destruct texts; [reflexivity | discriminate].
  - destruct texts as [| t texts]; [discriminate |].
    cbn [enumerate_from map fst snd]. f_equal.
    + unfold returned_text. rewrite transcribe_audio_chunk_spec.
      cbn [example_world recognize]. rewrite Nat2Z.id.
      rewrite map_app, app_nth2 by (rewrite length_map; lia).
      rewrite length_map, Nat.sub_diag. reflexivity.
    + replace (Z.of_nat (length heard) + 1)
        with (Z.of_nat (length (heard ++ [t])))
        by (rewrite length_app; simpl; lia).
      replace (heard ++ t :: texts) with ((heard ++ [t]) ++ texts)
        by (now rewrite <- app_assoc).
      apply IH. simpl in Hlen. lia.
Qed.

Lemma segment_texts_example (audio : AudioSegment)
  (silence : result (list AudioSegment)) (language : str)
  (chunks : list AudioSegment) (texts : list str) :
  length chunks = length texts ->
  segment_texts (example_world audio silence (map Ok texts)) language chunks
  = texts.
Proof.
  intros H. exact (segment_texts_example_from audio silence language chunks texts [] H).
Qed.

(** ** Segment transcription *)

Lemma transcribe_loop_calls (w : World) (language : str) (cb : option callback)
  (total : Z) :
  quiet cb ->
  forall (chunks : list AudioSegment) (s : Z) (parts : list str) (n : nat),
    0 <= s -> (n < length chunks)%nat ->
    In (Call_recognize (Z.to_nat s + n))
       (trace (transcribe_loop w language cb total (enumerate_from s chunks) parts)).
Proof.
  intros Hq. induction chunks as [| c chunks IH]; intros s parts n Hs Hn;
    [simpl in Hn; lia |].
  cbn [enumerate_from transcribe_loop].
  rewrite trace_bind, (report_returns _ _ _ Hq). apply in_or_app. right.
  rewrite trace_bind, transcribe_audio_chunk_returns. apply in_or_app.
  destruct n as [| n].
  - left. rewrite transcribe_audio_chunk_spec, Nat.add_0_r.
    destruct (recognize w (Z.to_nat s) c language) as [t | [| m | m | m]];
      left; reflexivity.
  - right. rewrite trace_bind. cbn [emit outcome snd trace fst].
    right. replace (Z.to_nat s + S n)%nat with (Z.to_nat (s + 1) + n)%nat by lia.
    apply IH; [lia | simpl in Hn; lia].
Qed.

(** C7. [transcribe_audio_chunk] always returns a string and never raises:
    the empty string, silently, when no speech is detected, and the empty
    string after one warning on a service error or any other error.  So the
    loop of [transcribe_video] reaches every segment and returns. *)
Theorem transcribe_audio_chunk_total (w : World) (k : nat)
  (audio_chunk : AudioSegment) (language : str) :
  (exists s, outcome (transcribe_audio_chunk w k audio_chunk language) = Ok s)
  /\ (recognize w k audio_chunk language = Raise UnknownValueError ->
      transcribe_audio_chunk w k audio_chunk language
      = ([Call_recognize k], Ok []))
  /\ (forall msg, recognize w k audio_chunk language = Raise (RequestError msg) ->
      transcribe_audio_chunk w k audio_chunk language
      = ([Call_recognize k; St_warning (MsgServiceError msg)], Ok []))
  /\ (forall e, recognize w k audio_chunk language = Raise e ->
      e <> UnknownValueError -> (forall msg, e <> RequestError msg) ->
      transcribe_audio_chunk w k audio_chunk language
      = ([Call_recognize k; St_warning (MsgChunkError (exn_str e))], Ok []))
  /\ (forall cb total chunks,
      quiet cb ->
      (exists parts,
         outcome (transcribe_loop w language cb total (enumerate chunks) [])
         = Ok parts)
      /\ forall i, (i < length chunks)%nat ->
           In (Call_recognize i)
              (trace (transcribe_loop w language cb total (enumerate chunks) []))).
Proof.
  split; [| split; [| split; [| split]]].
  - rewrite transcribe_audio_chunk_returns. eauto.
  - intros H. now rewrite transcribe_audio_chunk_spec, H.
  - intros msg H. now rewrite transcribe_audio_chunk_spec, H.
  - intros e H H1 H2. rewrite transcribe_audio_chunk_spec, H.
    destruct e as [| msg | msg | msg]; try reflexivity.
    + congruence.
    + exfalso. exact (H2 msg eq_refl).
  - intros cb total chunks Hq. split.
    + rewrite (transcribe_loop_returns _ _ _ _ _ _ Hq). eauto.
    + intros i Hi.
      apply (transcribe_loop_calls w language cb total Hq chunks 0 [] i);
        [lia | exact Hi].
Qed.

(** C7 on three segments: no speech, a service error, then "ok"; the loop
    asks for all three and returns the one text. *)
Lemma transcribe_audio_chunk_total_witness :
  transcribe_loop
    (example_world [] (Ok [])
       [Raise UnknownValueError; Raise (RequestError (lit "quota")); Ok (lit "ok")])
    (lit "en-US") None 3 (enumerate [[1]; [2]; [3]]) []
  = ([Call_recognize 0; Sleep;
      Call_recognize 1; St_warning (MsgServiceError (lit "quota")); Sleep;
      Call_recognize 2; Sleep],
     Ok [lit "ok"])
  /\ In (Call_recognize 2)
        (trace (transcribe_loop
                  (example_world [] (Ok [])
                     [Raise UnknownValueError; Raise (RequestError (lit "quota"));
                      Ok (lit "ok")])
                  (lit "en-US") None 3 (enumerate [[1]; [2]; [3]]) [])).
Proof.
  split; [vm_compute; reflexivity |].
  destruct (transcribe_audio_chunk_total
              (example_world [] (Ok [])
                 [Raise UnknownValueError; Raise (RequestError (lit "quota"));
                  Ok (lit "ok")])
              0 [1] (lit "en-US")) as (_ & _ & _ & _ & H).
  destruct (H None 3 [[1]; [2]; [3]] I) as [_ Hcalls].
  apply Hcalls. simpl. lia.
Defined.

(** ** Validation of the upload *)

(** C5. The size cap is 200 MiB, and a file of more bytes is rejected with
    the size error as the only thing [main_app] does:
    [extract_audio_from_video] is never entered. *)
Theorem oversized_file_rejected (w : World) (f : UploadedFile)
  (start_clicked : bool) (language : str) (chunk_duration : Z) :
  MAX_FILE_SIZE = 200 * 2 ^ 20
  /\ (MAX_FILE_SIZE < len (getvalue f) ->
      main_app w (Some f) start_clicked language chunk_duration
      = ([St_error (MsgFileTooLarge (len (getvalue f)))], Ok tt)
      /\ ~ In Call_extract
           (trace (main_app w (Some f) start_clicked language chunk_duration))).
Proof.
  split; [reflexivity |]. intros H.
  assert (E : main_app w (Some f) start_clicked language chunk_duration
              = ([St_error (MsgFileTooLarge (len (getvalue f)))], Ok tt)).
  { unfold main_app.
    replace (MAX_FILE_SIZE <? len (getvalue f)) with true; [reflexivity |].
    symmetry. apply Z.ltb_lt. exact H. }
  split; [exact E |]. rewrite E. simpl. intros [H1 | []]. discriminate.
Qed.

(** C5 on a file of 200 MiB and one byte. *)
Lemma oversized_file_rejected_witness :
  ~ In Call_extract
       (trace (main_app (example_world [] (Ok []) [])
                 (Some {| name := lit "big.mp4";
                          getvalue := repeat x00 (N.to_nat 209715201) |})
                 true (lit "en-US") 30)).
Proof.
  apply (proj2 (oversized_file_rejected (example_world [] (Ok []) [])
                  {| name := lit "big.mp4";
                     getvalue := repeat x00 (N.to_nat 209715201) |}
                  true (lit "en-US") 30)).
  cbn [getvalue]. unfold len, MAX_FILE_SIZE. rewrite repeat_length. lia.
Defined.

Lemma supported_formats_lowercase (w : World) (fmt : str) :
  lower_agrees_on_ascii w -> In fmt SUPPORTED_VIDEO_FORMATS ->
  unicode_lower w fmt = fmt.
Proof.
  intros Hl Hin.
  assert (H : Forall is_ascii fmt /\ map ascii_lower fmt = fmt).
  { unfold SUPPORTED_VIDEO_FORMATS in Hin. simpl in Hin.
    repeat (destruct Hin as [<- | Hin];
            [split; [repeat constructor | reflexivity] |]).
    contradiction. }
  destruct H as [Ha Hm]. now rewrite (Hl fmt Ha).
Qed.

(** C6. A file whose extension equals none of the seven supported ones,
    letter case ignored, is rejected by [main_app] with a validation error as
    its only action, whatever its size, and the pipeline does not start.  A
    file whose extension is a supported one written in any mix of letter
    cases passes the extension check, and is accepted when its size is
    within the cap. *)
Theorem extension_check (w : World) (f : UploadedFile) (start_clicked : bool)
  (language : str) (chunk_duration : Z) :
  lower_agrees_on_ascii w ->
  ((forall fmt, In fmt SUPPORTED_VIDEO_FORMATS ->
                ~ same_ignoring_case w (extension w f) fmt) ->
   (exists m,
      main_app w (Some f) start_clicked language chunk_duration
      = ([St_error m], Ok tt)
      /\ (m = MsgFileTooLarge (len (getvalue f))
          \/ m = MsgUnsupportedFormat (unicode_lower w (extension w f))))
   /\ ~ In Call_extract
          (trace (main_app w (Some f) start_clicked language chunk_duration)))
  /\ (forall fmt, In fmt SUPPORTED_VIDEO_FORMATS ->
        letter_case_variant (extension w f) fmt ->
        str_in (unicode_lower w (extension w f)) SUPPORTED_VIDEO_FORMATS = true
        /\ (len (getvalue f) <= MAX_FILE_SIZE ->
            exists rest,
              trace (main_app w (Some f) start_clicked language chunk_duration)
              = St_success (MsgFileLoaded (name f))
                :: St_info (MsgFileSize (len (getvalue f))) :: rest)).
Proof.
  intros Hl. split.
  - intros Hnone.
    assert (Hout : str_in (unicode_lower w (extension w f))
                          SUPPORTED_VIDEO_FORMATS = false).
    { destruct (str_in _ _) eqn:E; [| reflexivity]. exfalso.
      apply str_in_In in E. apply (Hnone _ E). unfold same_ignoring_case.
      now rewrite (supported_formats_lowercase w _ Hl E). }
    assert (Hrej : exists m,
      main_app w (Some f) start_clicked language chunk_duration
      = ([St_error m], Ok tt)
      /\ (m = MsgFileTooLarge (len (getvalue f))
          \/ m = MsgUnsupportedFormat (unicode_lower w (extension w f)))).
    { unfold main_app. fold (extension w f). rewrite Hout.
      destruct (MAX_FILE_SIZE <? len (getvalue f)); eexists; split;
        try reflexivity; auto. }
    split; [exact Hrej |]. destruct Hrej as (m & -> & _).
    simpl. intros [H | []]. discriminate.
  - intros fmt Hin [Ha Hm].
    assert (Hext : unicode_lower w (extension w f) = fmt).
    { now rewrite (Hl _ Ha). }
    assert (Hpass : In (unicode_lower w (extension w f)) SUPPORTED_VIDEO_FORMATS).
    { now rewrite Hext. }
    split; [now apply str_in_In |]. intros Hsize.
    unfold main_app. fold (extension w f).
    replace (MAX_FILE_SIZE <? len (getvalue f)) with false
      by (symmetry; apply Z.ltb_ge; exact Hsize).
    apply str_in_In in Hpass. rewrite Hpass. cbn [negb].
    rewrite trace_bind. cbn [emit outcome snd trace fst app].
    rewrite trace_bind. cbn [emit outcome snd trace fst app].
    eexists. reflexivity.
Qed.

(** C6 on "notes.txt", rejected, and on "talk.MP4", accepted. *)
Lemma extension_check_witness :
  (exists m,
     main_app (example_world [] (Ok []) [])
              (Some {| name := lit "notes.txt"; getvalue := [x00] |})
              true (lit "en-US") 30
     = ([St_error m], Ok tt))
  /\ str_in (unicode_lower (example_world [] (Ok []) [])
               (extension (example_world [] (Ok []) []) example_file))
            SUPPORTED_VIDEO_FORMATS = true.
Proof.
  split.
  - destruct (extension_check (example_world [] (Ok []) [])
                {| name := lit "notes.txt"; getvalue := [x00] |}
                true (lit "en-US") 30) as [H _].
    + intros s _. reflexivity.
    + destruct H as [(m & Hm & _) _]; [| eauto].
      intros fmt Hin. unfold SUPPORTED_VIDEO_FORMATS in Hin. simpl in Hin.
      repeat (destruct Hin as [<- | Hin]; [vm_compute; discriminate |]).
      contradiction.
  - destruct (extension_check (example_world [] (Ok []) []) example_file
                true (lit "en-US") 30) as [_ H].
    + intros s _. reflexivity.
    + apply (H (lit ".mp4")); [decide_in |].
      split; [vm_compute; repeat constructor | vm_compute; reflexivity].
Defined.

(** ** Fixed-length slicing *)

Lemma ceil_div_zero (L : Z) : 0 < L -> ceil_div 0 L = 0.
Proof. intros H. unfold ceil_div. apply Z.div_small. lia. Qed.

Lemma ceil_div_pred (n L : Z) : 0 < L -> ceil_div n L = (n - 1) / L + 1.
Proof.
  intros H. unfold ceil_div.
  replace (n + L - 1) with (n - 1 + 1 * L) by lia.
  apply Z.div_add. lia.
Qed.

Lemma ceil_div_bounds (n L : Z) :
  0 < L -> 0 < n ->
  0 < ceil_div n L /\ (ceil_div n L - 1) * L < n <= ceil_div n L * L.
Proof.
  intros HL Hn. rewrite (ceil_div_pred n L HL).
  pose proof (Z.div_mod (n - 1) L ltac:(lia)) as Hdm.
  pose proof (Z.mod_pos_bound (n - 1) L HL) as Hr.
  pose proof (Z.div_pos (n - 1) L ltac:(lia) HL) as Hq.
  split; [lia |]. nia.
Qed.

Lemma ceil_div_nonneg (n L : Z) : 0 < L -> 0 <= n -> 0 <= ceil_div n L.
Proof.
  intros HL Hn. unfold ceil_div. apply Z.div_pos; lia.
Qed.

Lemma range_len_ceil (n L : Z) :
  0 < L -> 0 <= n -> range_len 0 n L = Z.to_nat (ceil_div n L).
Proof.
  intros HL Hn. unfold range_len.
  replace (0 <? L) with true by (symmetry; apply Z.ltb_lt; exact HL).
  destruct (Z.ltb_spec 0 n) as [H | H].
  - rewrite (ceil_div_pred n L HL). now replace (n - 0 - 1) with (n - 1) by lia.
  - replace n with 0 by lia. now rewrite (ceil_div_zero L HL).
Qed.

Lemma audio_slice_range (audio : AudioSegment) (i j : Z) :
  0 <= i -> 0 <= j ->
  audio_slice audio i j
  = segment_range audio (Z.min i (len audio)) (Z.min j (len audio)).
Proof.
  intros Hi Hj. unfold audio_slice, py_slice, segment_range.
  assert (Hn : 0 <= len audio) by (unfold len; lia).
  set (n := len audio) in *.
  cbv zeta.
  repeat match goal with
         | |- context [?a <? 0] => destruct (Z.ltb_spec a 0); [lia |]
         end.
  replace (Z.min (Z.min i n) n) with (Z.min i n) by lia.
  replace (Z.min (Z.min j n) n) with (Z.min j n) by lia.
  reflexivity.
Qed.

Lemma fixed_length_chunks_spec (audio : AudioSegment) (L : Z) :
  0 < L ->
  fixed_length_chunks audio L
  = Ok (map (kth_chunk audio L)
            (seq 0 (Z.to_nat (ceil_div (len audio) L)))).
Proof.
  intros HL. unfold fixed_length_chunks, py_range.
  replace (L =? 0) with false by (symmetry; apply Z.eqb_neq; lia).
  assert (Hn : 0 <= len audio) by (unfold len; lia).
  rewrite (range_len_ceil _ _ HL Hn), map_map. f_equal.
  apply map_ext_in. intros k Hk. apply in_seq in Hk.
  rewrite audio_slice_range by lia. unfold kth_chunk.
  assert (Hlt : Z.of_nat k * L < len audio).
  { destruct (Z.eq_dec (len audio) 0) as [E | E].
    - rewrite E, (ceil_div_zero L HL) in Hk. simpl in Hk. lia.
    - destruct (ceil_div_bounds (len audio) L HL ltac:(lia)) as [H1 H2]. nia. }
  f_equal; [lia |]. f_equal. lia.
Qed.


Lemma segment_range_length (audio : AudioSegment) (a b : Z) :
  0 <= a <= b -> b <= len audio -> len (segment_range audio a b) = b - a.
Proof.
  unfold segment_range, len. intros H1 H2.
  rewrite length_firstn, length_skipn. lia.
Qed.


Lemma nth_error_seq_0 (len k : nat) :
  (k < len)%nat -> nth_error (seq 0 len) k = Some k.
Proof.
  intros H. rewrite (nth_error_nth' _ 0%nat) by (now rewrite length_seq).
  now rewrite seq_nth.
Qed.

(** When segmentation yields nothing, the run reports the failure and
    returns no transcript. *)
Lemma transcribe_video_no_chunks (w : World) (f : UploadedFile) (language : str)
  (chunk_duration : Z) (cb : option callback) :
  quiet cb ->
  clip w = ClipWritten ->
  outcome (split_audio_into_chunks w (chunk_duration * 1000)) = Ok [] ->
  outcome (transcribe_video w f language chunk_duration cb) = Ok None
  /\ In (St_error MsgSplitFailed)
        (trace (transcribe_video w f language chunk_duration cb)).
Proof.
  intros Hq Hclip Hsplit. unfold transcribe_video. split.
  - rewrite outcome_try_finally, cleanup_returns, outcome_try_except.
    rewrite outcome_bind, (report_returns _ _ _ Hq).
    rewrite outcome_bind, extract_audio_from_video_spec, Hclip.
    cbn [outcome snd negb].
    rewrite outcome_bind, (report_returns _ _ _ Hq).
    rewrite outcome_bind, Hsplit. reflexivity.
  - rewrite trace_try_finally. apply in_or_app. left.
    assert (Hbody : forall (h : exn -> M (option str)) (m : M (option str)),
               outcome m = Ok None -> In (St_error MsgSplitFailed) (trace m) ->
               In (St_error MsgSplitFailed) (trace (try_except m h))).
    { intros h m Ho Hi. rewrite trace_try_except, Ho. exact Hi. }
    apply Hbody.
    + rewrite outcome_bind, (report_returns _ _ _ Hq).
      rewrite outcome_bind, extract_audio_from_video_spec, Hclip.
      cbn [outcome snd negb].
      rewrite outcome_bind, (report_returns _ _ _ Hq).
      rewrite outcome_bind, Hsplit. reflexivity.
    + rewrite trace_bind, (report_returns _ _ _ Hq). apply in_or_app. right.
      rewrite trace_bind, extract_audio_from_video_spec, Hclip.
      cbn [outcome snd negb]. apply in_or_app. right.
      rewrite trace_bind, (report_returns _ _ _ Hq). apply in_or_app. right.
      rewrite trace_bind, Hsplit. apply in_or_app. right.
      left. reflexivity.
Qed.

(** What [split_audio_into_chunks] does once the waveform is loaded and
    silence-based splitting degenerates. *)
Lemma split_audio_into_chunks_degenerate (w : World) (L : Z)
  (audio : AudioSegment) :
  from_wav w = Ok audio ->
  silence_degenerate w audio ->
  split_audio_into_chunks w L
  = match fixed_length_chunks audio L with
    | Ok chunks => ([], Ok chunks)
    | Raise e => ([St_error (MsgSplitError (exn_str e))], Ok [])
    end.
Proof.
  intros Hwav Hdeg. unfold split_audio_into_chunks, silence_degenerate in *.
  rewrite Hwav. cbn [lift bind app].
  destruct (split_on_silence w audio) as [chunks | e].
  - replace (len chunks <=? 1) with true
      by (symmetry; apply Z.leb_le; exact Hdeg).
    cbn [lift bind app try_except].
    destruct (fixed_length_chunks audio L); reflexivity.
  - cbn [lift bind app try_except].
    destruct (fixed_length_chunks audio L); reflexivity.
Qed.



Lemma last_chunk_length (n L c : Z) :
  0 < L -> 0 < n -> (c - 1) * L < n <= c * L ->
  (n mod L = 0 -> n - (c - 1) * L = L)
  /\ (n mod L <> 0 -> n - (c - 1) * L = n mod L).
Proof.
  intros HL Hn Hc.
  pose proof (Z.div_mod n L ltac:(lia)) as Hdm.
  pose proof (Z.mod_pos_bound n L HL) as Hr.
  set (q := n / L) in *. set (r := n mod L) in *. split; intros H.
  - assert (c - 1 < q) by nia. assert (q <= c) by nia.
    assert (q = c) by lia. subst c. nia.
  - assert (q < c) by nia. assert (c - 1 < q + 1) by nia.
    assert (q = c - 1) by lia. nia.
Qed.

(** C3. Once the waveform is loaded, if silence-based splitting yields at
    most one segment or raises, [split_audio_into_chunks] returns the
    fixed-length slices for the configured chunk length: every slice but the
    last has exactly that length, and the last has it too when the total
    length is a multiple of it and is shorter, the remainder, when it is
    not. *)
Theorem split_audio_into_chunks_fallback (w : World) (L : Z)
  (audio : AudioSegment) :
  from_wav w = Ok audio ->
  silence_degenerate w audio ->
  let n := len audio in
  exists chunks,
    outcome (split_audio_into_chunks w L) = Ok chunks
    /\ (0 < L ->
        split_audio_into_chunks w L = ([], Ok chunks)
        /\ fixed_length_chunks audio L = Ok chunks
        /\ len chunks = ceil_div n L)
    /\ (forall i c, nth_error chunks i = Some c ->
          ((S i < length chunks)%nat -> len c = L)
          /\ (S i = length chunks ->
              0 < len c <= L
              /\ (n mod L = 0 -> len c = L)
              /\ (n mod L <> 0 -> len c = n mod L /\ len c < L))).
Proof.
  intros Hwav Hdeg n.
  assert (Hn : 0 <= n) by (unfold n, len; lia).
  rewrite (split_audio_into_chunks_degenerate w L audio Hwav Hdeg).
  destruct (Z.lt_trichotomy L 0) as [HL | [HL | HL]].
  - exists []. split; [| split; [lia | intros [| i] c H; discriminate]].
    unfold fixed_length_chunks, py_range, range_len. fold n.
    replace (L =? 0) with false by (symmetry; apply Z.eqb_neq; lia).
    replace (0 <? L) with false by (symmetry; apply Z.ltb_ge; lia).
    replace (n <? 0) with false by (symmetry; apply Z.ltb_ge; lia).
    reflexivity.
  - exists []. subst L.
    split; [reflexivity | split; [lia | intros [| i] c H; discriminate]].
  - pose proof (ceil_div_nonneg n L HL Hn) as Hc.
    rewrite (fixed_length_chunks_spec audio L HL). fold n.
    exists (map (kth_chunk audio L) (seq 0 (Z.to_nat (ceil_div n L)))).
    split; [reflexivity | split].
    + intros _. repeat split. unfold len. rewrite length_map, length_seq. lia.
    + intros i c Hi. rewrite length_map, length_seq.
      assert (Hlt : (i < Z.to_nat (ceil_div n L))%nat).
      { assert (Hs : nth_error
                       (map (kth_chunk audio L) (seq 0 (Z.to_nat (ceil_div n L)))) i
                     <> None) by congruence.
        apply nth_error_Some in Hs.
        now rewrite length_map, length_seq in Hs. }
      rewrite (map_nth_error _ _ _ (nth_error_seq_0 _ _ Hlt)) in Hi.
      injection Hi as <-.
      assert (Hpos : 0 < n).
      { destruct (Z.eq_dec n 0) as [E | E]; [| lia].
        rewrite E, (ceil_div_zero L HL) in Hlt. simpl in Hlt. lia. }
      destruct (ceil_div_bounds n L HL Hpos) as [Hc1 Hc2].
      unfold kth_chunk. fold n.
      split; intros Hi.
      * rewrite segment_range_length; fold n; nia.
      * assert (Ei : Z.of_nat i = ceil_div n L - 1) by lia.
        rewrite Ei. replace (ceil_div n L - 1 + 1) with (ceil_div n L) by lia.
        replace (Z.min (ceil_div n L * L) n) with n by lia.
        rewrite segment_range_length; fold n; [| nia | lia].
        destruct (last_chunk_length n L (ceil_div n L) HL Hpos Hc2) as [H0 H1].
        pose proof (Z.mod_pos_bound n L HL) as Hr.
        split; [nia |]. split; [exact H0 |].
        intros Hm. rewrite (H1 Hm). lia.
Qed.

(** C3 on seven elements, chunk length three, silence detection raising. *)
Lemma split_audio_into_chunks_fallback_witness :
  split_audio_into_chunks
    (example_world [1; 2; 3; 4; 5; 6; 7] (Raise (OtherException (lit "dBFS"))) [])
    3
  = ([], Ok [[1; 2; 3]; [4; 5; 6]; [7]])
  /\ exists chunks,
       outcome (split_audio_into_chunks
                  (example_world [1; 2; 3; 4; 5; 6; 7]
                                 (Raise (OtherException (lit "dBFS"))) [])
                  3)
       = Ok chunks
       /\ len chunks = 3
       /\ forall c, nth_error chunks 2 = Some c -> len c = 1.
Proof.
  split; [vm_compute; reflexivity |].
  destruct (split_audio_into_chunks_fallback
              (example_world [1; 2; 3; 4; 5; 6; 7]
                             (Raise (OtherException (lit "dBFS"))) [])
              3 [1; 2; 3; 4; 5; 6; 7] eq_refl I)
    as (chunks & H1 & H2 & H3).
  destruct (H2 eq_refl) as (_ & _ & Hlen).
  exists chunks. split; [exact H1 | split; [exact Hlen |]].
  intros c Hc. destruct (H3 2%nat c Hc) as [_ Hlast].
  assert (Hl : 3%nat = length chunks).
  { change (Z.of_nat (length chunks) = 3) in Hlen. lia. }
  destruct (Hlast Hl) as (_ & _ & Hrem).
  apply Hrem. vm_compute. discriminate.
Defined.

(** ** Runs without text *)















(** If the loop returns, it returns the parts it started with followed by
    the stripped non-empty texts, whatever the callback does. *)
Lemma transcribe_loop_parts (w : World) (language : str)
  (cb : option callback) (total : Z) (ichunks : list (Z * AudioSegment))
  (parts0 parts : list str) :
  outcome (transcribe_loop w language cb total ichunks parts0) = Ok parts ->
  parts
  = parts0 ++ stripped_nonempty
      (map (fun ic => returned_text
              (transcribe_audio_chunk w (Z.to_nat (fst ic)) (snd ic) language))
           ichunks).
Proof.
  revert parts0. induction ichunks as [| [i c] rest IH]; intros parts0 E.
  - injection E as <-. now rewrite app_nil_r.
  - cbn [transcribe_loop] in E.
    apply bind_returns in E. destruct E as (u & _ & E).
    apply bind_returns in E. destruct E as (t & Ht & E).
    rewrite transcribe_audio_chunk_returns in Ht. injection Ht as <-.
    apply bind_returns in E. destruct E as (u' & _ & E).
    apply IH in E. rewrite E. cbn [map fst snd].
    rewrite stripped_nonempty_cons.
    destruct (truthy (strip _)); [| reflexivity]. now rewrite <- app_assoc.
Qed.





(* ===================================================================== *)
(** * Further properties of the code *)
(* ===================================================================== *)

(** ** Fragments of the subtitle formatter *)

Lemma startswith_spec (p s : str) :
  startswith p s = true <-> exists s2, s = p ++ s2.
Proof.
  revert s. induction p as [| a p IH]; intros s; simpl.
  - split; [intros _; now exists s | reflexivity].
  - destruct s as [| b s].
    + split; [discriminate | intros (s2 & H); discriminate].
    + rewrite andb_true_iff, N.eqb_eq, IH. split.
      * intros [-> (s2 & ->)]. now exists s2.
      * intros (s2 & H). injection H as -> ->. split; [reflexivity | now exists s2].
Qed.

Lemma split_go_nonempty (sep : str) (k : nat) (s acc : str) :
  split_go sep k s acc <> [].
Proof.
  revert k acc. induction s as [| c s IH]; intros k acc; simpl; [discriminate |].
  destruct k as [| k]; [| apply IH].
  destruct (startswith sep (c :: s)); [discriminate | apply IH].
Qed.

Lemma split_go_skip (sep pre s2 acc : str) :
  split_go sep (length pre) (pre ++ s2) acc = split_go sep 0 s2 acc.
Proof. induction pre as [| c pre IH]; [reflexivity | exact IH]. Qed.

Lemma join_cons_nonempty (sep p : str) (rest : list str) :
  rest <> [] -> join sep (p :: rest) = p ++ sep ++ join sep rest.
Proof. destruct rest; [congruence | reflexivity]. Qed.

(** Joining the fragments by the separator gives the string back. *)
Lemma join_split_go (sep : str) :
  sep <> [] ->
  forall (n : nat) (s acc : str),
    (length s <= n)%nat -> join sep (split_go sep 0 s acc) = rev acc ++ s.
Proof.
  intros Hsep. induction n as [| n IH]; intros s acc Hn.
  - destruct s; [simpl; now rewrite app_nil_r | simpl in Hn; lia].
  - destruct s as [| c s]; [simpl; now rewrite app_nil_r |].
    cbn [split_go]. destruct (startswith sep (c :: s)) eqn:E.
    + apply startswith_spec in E. destruct E as (s2 & E).
      destruct sep as [| c0 sep']; [congruence |].
      injection E as <- ->. cbn [length]. rewrite Nat.sub_succ, Nat.sub_0_r.
      rewrite split_go_skip, join_cons_nonempty by apply split_go_nonempty.
      rewrite IH by (simpl in Hn; rewrite length_app in Hn; lia).
      reflexivity.
    + rewrite IH by (simpl in Hn; lia). simpl. now rewrite <- app_assoc.
Qed.

Lemma join_split (sep s : str) : sep <> [] -> join sep (split sep s) = s.
Proof. intros H. unfold split. now rewrite (join_split_go sep H (length s)). Qed.

(** A string in which the separator does not occur is its only fragment. *)
Lemma split_go_no_sep (sep : str) (s acc : str) :
  ~ contains sep s -> split_go sep 0 s acc = [rev acc ++ s].
Proof.
  revert acc. induction s as [| c s IH]; intros acc H.
  - simpl. now rewrite app_nil_r.
  - cbn [split_go]. destruct (startswith sep (c :: s)) eqn:E.
    + exfalso. apply startswith_spec in E. destruct E as (s2 & E).
      apply H. exists [], s2. exact E.
    + rewrite IH.
      * simpl. now rewrite <- app_assoc.
      * intros (a & b & Hab). apply H. exists (c :: a), b. simpl. now rewrite Hab.
Qed.

Lemma lstrip_nil (s : str) :
  lstrip s = [] -> Forall (fun c => isspace c = true) s.
Proof.
  induction s as [| c s IH]; simpl; [constructor |].
  destruct (isspace c) eqn:E; [| discriminate]. intros H. constructor; auto.
Qed.

Lemma strip_nil (s : str) :
  strip s = [] -> Forall (fun c => isspace c = true) s.
Proof.
  unfold strip, rstrip. intros H.
  assert (H1 : lstrip (rev (lstrip s)) = []).
  { rewrite <- (rev_involutive (lstrip (rev (lstrip s)))), H. reflexivity. }
  apply lstrip_nil in H1. apply Forall_rev in H1. rewrite rev_involutive in H1.
  pose proof (lstrip_starts_clean s) as Hc.
  destruct (lstrip s) as [| c r] eqn:E; [now apply lstrip_nil |].
  inversion H1 as [| ? ? Hs _]. simpl in Hc. congruence.
Qed.

(** X1. A transcript in which ". " does not occur, which is what the
    recognition service usually returns, is one fragment: the subtitle
    document is the single block numbered 1 over the first interval, its
    text the stripped transcript with a period.  A transcript that is
    empty or all whitespace gives the empty document. *)
Theorem create_srt_content_unpunctuated (transcript : str) (chunk_duration : Z) :
  (~ contains (lit ". ") transcript ->
   create_srt_content transcript chunk_duration
   = if truthy (strip transcript)
     then render_caption {| seq_no := 1; start_s := 0;
                            end_s := chunk_duration;
                            text := strip transcript ++ lit "." |}
     else [])
  /\ (strip transcript = [] -> create_srt_content transcript chunk_duration = []).
Proof.
  assert (H1 : ~ contains (lit ". ") transcript ->
   create_srt_content transcript chunk_duration
   = if truthy (strip transcript)
     then render_caption {| seq_no := 1; start_s := 0;
                            end_s := chunk_duration;
                            text := strip transcript ++ lit "." |}
     else []).
  { intros H. unfold create_srt_content, split.
    rewrite (split_go_no_sep _ _ [] H). cbn [rev app enumerate enumerate_from].
    rewrite fold_srt_step. cbn [app]. unfold captions_from. cbn [flat_map fst snd].
    destruct (truthy (strip transcript)); [| reflexivity].
    cbn [app map concat]. rewrite app_nil_r. unfold caption_of.
    replace (0 * chunk_duration) with 0 by lia.
    replace ((0 + 1) * chunk_duration) with chunk_duration by lia.
    reflexivity. }
  split; [exact H1 |]. intros Hs. rewrite H1, Hs; [reflexivity |].
  intros (a & b & Hab). apply strip_nil in Hs. rewrite Hab in Hs.
  apply Forall_app in Hs. destruct Hs as [_ Hs]. inversion Hs as [| ? ? Hdot _].
  vm_compute in Hdot. discriminate.
Qed.

(** X1 on "hello world", and on a transcript of three spaces. *)
Lemma create_srt_content_unpunctuated_witness :
  create_srt_content (lit "hello world") 30
  = lit "1" ++ nl ++ lit "00:00:00,000 --> 00:00:30,000" ++ nl
    ++ lit "hello world." ++ nl ++ nl
  /\ create_srt_content (lit "   ") 30 = [].
Proof.
  destruct (create_srt_content_unpunctuated (lit "hello world") 30) as [H _].
  destruct (create_srt_content_unpunctuated (lit "   ") 30) as [_ H'].
  split; [| apply H'; reflexivity].
  rewrite H; [vm_compute; reflexivity |].
  intros (a & b & Hab).
  assert (Hin : In period (lit "hello world")).
  { rewrite Hab. apply in_or_app. right. left. reflexivity. }
  vm_compute in Hin. repeat (destruct Hin as [Hin | Hin]; [discriminate |]).
  exact Hin.
Defined.

Lemma captions_from_all (d s : Z) (l : list str) :
  (forall frag, In frag l -> frag <> [] /\ strip frag = frag) ->
  map text (captions_from d (enumerate_from s l))
  = map (fun frag => frag ++ lit ".") l.
Proof.
  revert s. induction l as [| x l IH]; intros s H; [reflexivity |].
  cbn [enumerate_from]. rewrite (captions_from_cons d (s, x)), map_app.
  rewrite IH by (intros frag Hf; apply H; now right).
  destruct (H x (or_introl eq_refl)) as [Hx Hsx].
  unfold captions_from, caption_of. cbn [flat_map fst snd]. rewrite !Hsx.
  destruct x as [| c x]; [congruence |]. reflexivity.
Qed.

Lemma join_with_periods (l : list str) :
  l <> [] ->
  join (lit " ") (map (fun frag => frag ++ lit ".") l)
  = join (lit ". ") l ++ lit ".".
Proof.
  induction l as [| x l IH]; [congruence |]. intros _.
  destruct l as [| y l]; [reflexivity |].
  change (map (fun frag => frag ++ lit ".") (x :: y :: l))
    with ((x ++ lit ".") :: map (fun frag => frag ++ lit ".") (y :: l)).
  rewrite (join_cons_nonempty (lit " ")) by discriminate.
  rewrite (join_cons_nonempty (lit ". ") x) by discriminate.
  rewrite IH by discriminate.
  repeat rewrite <- app_assoc. reflexivity.
Qed.

(** X2. When every fragment of the split is non-empty and has no
    surrounding whitespace, the text lines of the emitted blocks, read in
    order with single spaces between them, are the transcript followed by
    one period: fragmenting loses and reorders nothing. *)
Theorem caption_texts_round_trip (transcript : str) (chunk_duration : Z) :
  (forall frag, In frag (split (lit ". ") transcript) ->
                frag <> [] /\ strip frag = frag) ->
  join (lit " ") (map text (captions transcript chunk_duration))
  = transcript ++ lit "."
  /\ create_srt_content transcript chunk_duration
     = concat (map render_caption (captions transcript chunk_duration)).
Proof.
  intros H. split.
  - unfold captions, enumerate. rewrite (captions_from_all _ _ _ H).
    rewrite join_with_periods by apply split_go_nonempty.
    rewrite join_split by discriminate. reflexivity.
  - unfold create_srt_content, captions. now rewrite fold_srt_step.
Qed.

(** X2 on the transcript of C1. *)
Lemma caption_texts_round_trip_witness :
  join (lit " ")
       (map text (captions (lit "Hello world. This is a test. Goodbye.") 30))
  = lit "Hello world. This is a test. Goodbye..".
Proof.
  apply (caption_texts_round_trip (lit "Hello world. This is a test. Goodbye.") 30).
  intros frag Hin. vm_compute in Hin.
  destruct Hin as [<- | [<- | [<- | []]]]; split;
    try discriminate; vm_compute; reflexivity.
Defined.

Lemma captions_from_sorted (d s : Z) (l : list str) :
  0 <= d ->
  StronglySorted (fun a b => seq_no a < seq_no b /\ end_s a <= start_s b)
                 (captions_from d (enumerate_from s l)).
Proof.
  intros Hd. revert s. induction l as [| x l IH]; intros s; [constructor |].
  cbn [enumerate_from]. rewrite (captions_from_cons d (s, x)).
  unfold captions_from at 1. cbn [flat_map fst snd].
  destruct (truthy (strip x)); [| apply IH].
  cbn [app]. constructor; [apply IH |].
  apply Forall_forall. intros c Hc. apply in_captions_from in Hc.
  destruct Hc as (n & line & _ & _ & ->). simpl. nia.
Qed.

(** X3. For a chunk duration that is not negative, the blocks of the
    subtitle document come in strictly increasing number order, every block
    lasts exactly the chunk duration, carries a number between 1 and the
    number of fragments, and no block starts before an earlier one has
    ended. *)
Theorem captions_in_order (transcript : str) (chunk_duration : Z) :
  0 <= chunk_duration ->
  let blocks := captions transcript chunk_duration in
  create_srt_content transcript chunk_duration
  = concat (map render_caption blocks)
  /\ StronglySorted (fun a b => seq_no a < seq_no b /\ end_s a <= start_s b)
                    blocks
  /\ Forall (fun c => end_s c - start_s c = chunk_duration
                      /\ start_s c = (seq_no c - 1) * chunk_duration
                      /\ 1 <= seq_no c <= len (split (lit ". ") transcript))
            blocks.
Proof.
  intros Hd blocks. split; [| split].
  - unfold create_srt_content, blocks, captions. now rewrite fold_srt_step.
  - apply captions_from_sorted. exact Hd.
  - apply Forall_forall. intros c Hc. unfold blocks, captions, enumerate in Hc.
    apply in_captions_from in Hc. destruct Hc as (n & line & Hn & _ & ->).
    assert (Hlt : (n < length (split (lit ". ") transcript))%nat).
    { apply nth_error_Some. congruence. }
    unfold len. simpl. split; [lia | split; [f_equal; lia | lia]].
Qed.

(** X3 on the transcript "a. . b" with its blank middle fragment. *)
Lemma captions_in_order_witness :
  StronglySorted (fun a b => seq_no a < seq_no b /\ end_s a <= start_s b)
                 (captions (lit "a. . b") 30)
  /\ map seq_no (captions (lit "a. . b") 30) = [1; 3].
Proof.
  split; [| vm_compute; reflexivity].
  apply (captions_in_order (lit "a. . b") 30). discriminate.
Defined.

(** ** Traces of the pipeline *)

Lemma trace_all_bind {A B : Type} (P : event -> Prop) (m : M A) (f : A -> M B) :
  trace_all P m -> (forall a, trace_all P (f a)) -> trace_all P (bind m f).
Proof.
  unfold trace_all. intros Hm Hf. rewrite trace_bind.
  destruct (outcome m) as [a | e]; [| exact Hm].
  apply Forall_app. split; [exact Hm | apply Hf].
Qed.

Lemma trace_all_try_except {A : Type} (P : event -> Prop) (m : M A)
  (h : exn -> M A) :
  trace_all P m -> (forall e, trace_all P (h e)) -> trace_all P (try_except m h).
Proof.
  unfold trace_all. intros Hm Hh. rewrite trace_try_except.
  destruct (outcome m) as [a | e]; [exact Hm |].
  apply Forall_app. split; [exact Hm | apply Hh].
Qed.

Lemma trace_all_silent {A : Type} (P : event -> Prop) (r : result A) :
  trace_all P (([], r) : M A).
Proof. constructor. Qed.

Lemma trace_all_emit (P : event -> Prop) (e : event) :
  P e -> trace_all P (emit e).
Proof. intros H. constructor; [exact H | constructor]. Qed.

Ltac trace_all_step :=
  first
    [ apply trace_all_silent
    | apply trace_all_emit; reflexivity
    | apply trace_all_bind; [| intros ?]
    | apply trace_all_try_except; [| intros ?]
    | match goal with
      | |- trace_all _ (match ?x with _ => _ end) => destruct x
      | |- trace_all _ (if ?x then _ else _) => destruct x
      end ].

Lemma progress_values_app (a b : list event) :
  progress_values (a ++ b) = progress_values a ++ progress_values b.
Proof.
  induction a as [| e a IH]; [reflexivity |]. simpl.
  destruct (progress_value e); simpl; now rewrite IH.
Qed.

Lemma progress_values_none (tr : list event) :
  Forall (fun e => progress_value e = None) tr -> progress_values tr = [].
Proof.
  induction 1 as [| e tr He _ IH]; [reflexivity |]. simpl. now rewrite He.
Qed.

Lemma extract_audio_from_video_no_progress (w : World) :
  progress_values (trace (extract_audio_from_video w)) = [].
Proof. rewrite extract_audio_from_video_spec. now destruct (clip w). Qed.

Lemma split_audio_into_chunks_no_progress (w : World) (L : Z) :
  progress_values (trace (split_audio_into_chunks w L)) = [].
Proof.
  apply progress_values_none. change (trace_all (fun e => progress_value e = None)
                                        (split_audio_into_chunks w L)).
  unfold split_audio_into_chunks, ret, lift. repeat trace_all_step.
Qed.

Lemma transcribe_audio_chunk_no_progress (w : World) (k : nat)
  (c : AudioSegment) (language : str) :
  progress_values (trace (transcribe_audio_chunk w k c language)) = [].
Proof.
  rewrite transcribe_audio_chunk_spec.
  destruct (recognize w k c language) as [t | [| m | m | m]]; reflexivity.
Qed.

Lemma cleanup_trace (w : World) :
  trace (cleanup w)
  = match unlink w TempAudio with
    | Ok _ => [Unlink TempAudio; Unlink TempVideo]
    | Raise _ => [Unlink TempAudio]
    end.
Proof.
  unfold cleanup. destruct (unlink w TempAudio) as [[] | e]; [| reflexivity].
  destruct (unlink w TempVideo) as [[] | e]; reflexivity.
Qed.

Lemma cleanup_eta (w : World) : cleanup w = (trace (cleanup w), Ok tt).
Proof. rewrite (M_eta (cleanup w)) at 1. now rewrite cleanup_returns. Qed.

Lemma cleanup_no_progress (w : World) : progress_values (trace (cleanup w)) = [].
Proof. rewrite cleanup_trace. now destruct (unlink w TempAudio). Qed.

(** X4. When the video has no audio track or cannot be decoded,
    [transcribe_video] stops right after the extraction: it shows the one
    extraction error, never segments or sends anything to the recognition
    service, still removes its temporary files, and returns no transcript;
    [main_app] then ends with the "no text found" error. *)
Theorem extraction_failure_aborts (w : World) (f : UploadedFile)
  (language : str) (chunk_duration : Z) :
  clip w <> ClipWritten ->
  exists m,
    (clip w = ClipNoAudio -> m = MsgNoAudioTrack)
    /\ (forall e, clip w = ClipRaises e -> m = MsgExtractError (exn_str e))
    /\ transcribe_video w f language chunk_duration None
       = ([Call_extract; St_error m] ++ trace (cleanup w), Ok None)
    /\ transcribe_video w f language chunk_duration (Some update_progress)
       = ([St_progress 10 PExtracting; Call_extract; St_error m]
          ++ trace (cleanup w), Ok None)
    /\ (passes_validation w f ->
        main_app w (Some f) true language chunk_duration
        = ([St_success (MsgFileLoaded (name f));
            St_info (MsgFileSize (len (getvalue f)));
            St_progress 10 PExtracting; Call_extract; St_error m]
           ++ trace (cleanup w) ++ [St_error MsgNoTextFound], Ok tt)).
Proof.
  intros Hclip.
  assert (H : exists m,
    (clip w = ClipNoAudio -> m = MsgNoAudioTrack)
    /\ (forall e, clip w = ClipRaises e -> m = MsgExtractError (exn_str e))
    /\ extract_audio_from_video w = ([Call_extract; St_error m], Ok false)).
  { rewrite extract_audio_from_video_spec. destruct (clip w) as [| | e].
    - exists MsgNoAudioTrack. repeat split; congruence.
    - congruence.
    - exists (MsgExtractError (exn_str e)). repeat split; congruence. }
  destruct H as (m & H1 & H2 & Hex). exists m.
  assert (Hnone : transcribe_video w f language chunk_duration None
                  = ([Call_extract; St_error m] ++ trace (cleanup w), Ok None)).
  { unfold transcribe_video. rewrite Hex, (cleanup_eta w). reflexivity. }
  assert (Hsome : transcribe_video w f language chunk_duration
                                   (Some update_progress)
                  = ([St_progress 10 PExtracting; Call_extract; St_error m]
                     ++ trace (cleanup w), Ok None)).
  { unfold transcribe_video. rewrite Hex, (cleanup_eta w). reflexivity. }
  split; [exact H1 | split; [exact H2 | split; [exact Hnone | split]]];
    [exact Hsome |].
  intros Hvalid. rewrite (main_app_run _ _ _ _ Hvalid), Hsome.
  cbn [emit bind app]. repeat rewrite <- app_assoc. reflexivity.
Qed.

(** X4 on a video without an audio track. *)
Lemma extraction_failure_aborts_witness :
  transcribe_video
    {| clip := ClipNoAudio; from_wav := Ok []; split_on_silence := fun _ => Ok [];
       recognize := fun _ _ _ => Ok (lit "never asked");
       unlink := fun _ => Ok tt; unicode_lower := map ascii_lower;
       os_sep := 47%N; os_altsep := None |}
    example_file (lit "en-US") 30 None
  = ([Call_extract; St_error MsgNoAudioTrack; Unlink TempAudio; Unlink TempVideo],
     Ok None).
Proof.
  destruct (extraction_failure_aborts
    {| clip := ClipNoAudio; from_wav := Ok []; split_on_silence := fun _ => Ok [];
       recognize := fun _ _ _ => Ok (lit "never asked");
       unlink := fun _ => Ok tt; unicode_lower := map ascii_lower;
       os_sep := 47%N; os_altsep := None |}
    example_file (lit "en-US") 30) as (m & Hm & _ & H & _).
  - discriminate.
  - rewrite H, (Hm eq_refl). reflexivity.
Defined.



Lemma report_standard (cb : option callback) (pct : Z) (msg : progress_msg) :
  standard_callback cb ->
  report cb pct msg = ([], Ok tt) \/ report cb pct msg = ([St_progress pct msg], Ok tt).
Proof. intros [-> | ->]; [left | right]; reflexivity. Qed.

Lemma transcribe_loop_requests (w : World) (language : str)
  (cb : option callback) (total : Z) :
  standard_callback cb ->
  forall (chunks : list AudioSegment) (s : Z) (parts : list str),
    0 <= s ->
    filter (fun e => is_call_recognize e || is_sleep e)
           (trace (transcribe_loop w language cb total
                                   (enumerate_from s chunks) parts))
    = flat_map (fun k => [Call_recognize k; Sleep])
               (seq (Z.to_nat s) (length chunks)).
Proof.
  intros Hcb. induction chunks as [| c chunks IH]; intros s parts Hs;
    [reflexivity |].
  cbn [enumerate_from transcribe_loop length seq flat_map app].
  assert (Hq : quiet cb) by (destruct Hcb as [-> | ->]; simpl; auto).
  rewrite trace_bind, (report_returns _ _ _ Hq), filter_app.
  rewrite trace_bind, transcribe_audio_chunk_returns, filter_app.
  rewrite trace_bind. cbn [emit outcome snd trace fst]. rewrite filter_app.
  rewrite IH by lia.
  replace (Z.to_nat (s + 1)) with (S (Z.to_nat s)) by lia.
  replace (filter (fun e => is_call_recognize e || is_sleep e)
                  (trace (report cb (30 + 60 * s / total) (PChunk (s + 1) total))))
    with (@nil event)
    by (destruct (report_standard cb (30 + 60 * s / total) (PChunk (s + 1) total) Hcb)
          as [-> | ->]; reflexivity).
  replace (filter (fun e => is_call_recognize e || is_sleep e)
                  (trace (transcribe_audio_chunk w (Z.to_nat s) c language)))
    with [Call_recognize (Z.to_nat s)]; [reflexivity |].
  rewrite transcribe_audio_chunk_spec.
  destruct (recognize w (Z.to_nat s) c language) as [t | [| m | m | m]];
    reflexivity.
Qed.

Lemma transcribe_loop_no_error (w : World) (language : str)
  (cb : option callback) (total : Z) :
  standard_callback cb ->
  forall (ichunks : list (Z * AudioSegment)) (parts : list str),
    trace_all (fun e => is_error e = false)
              (transcribe_loop w language cb total ichunks parts).
Proof.
  intros Hcb. induction ichunks as [| [i c] rest IH]; intros parts.
  - apply trace_all_silent.
  - cbn [transcribe_loop].
    apply trace_all_bind; [| intros _].
    { unfold trace_all.
      destruct (report_standard cb (30 + 60 * i / total) (PChunk (i + 1) total) Hcb)
        as [-> | ->]; repeat constructor. }
    apply trace_all_bind; [| intros t].
    { unfold trace_all. rewrite transcribe_audio_chunk_spec.
      destruct (recognize w (Z.to_nat i) c language) as [t | [| m | m | m]];
        repeat constructor. }
    apply trace_all_bind; [apply trace_all_emit; reflexivity | intros _].
    apply IH.
Qed.

(** X6. The loop of [transcribe_video] sends exactly one request per
    segment, in segment order and never a second one for a segment that
    failed, and pauses once after every request, failed or not.  Failures
    of segments show warnings only, never an error. *)
Theorem one_request_per_segment (w : World) (language : str)
  (cb : option callback) (total : Z) (chunks : list AudioSegment)
  (parts : list str) :
  standard_callback cb ->
  let tr := trace (transcribe_loop w language cb total (enumerate chunks) parts) in
  filter (fun e => is_call_recognize e || is_sleep e) tr
  = flat_map (fun k => [Call_recognize k; Sleep]) (seq 0 (length chunks))
  /\ Forall (fun e => is_error e = false) tr.
Proof.
  intros Hcb tr. split.
  - apply (transcribe_loop_requests w language cb total Hcb chunks 0 parts). lia.
  - apply (transcribe_loop_no_error w language cb total Hcb).
Qed.

(** X6 on two segments, the first failing with a service error. *)
Lemma one_request_per_segment_witness :
  filter (fun e => is_call_recognize e || is_sleep e)
         (trace (transcribe_loop
                   (example_world [] (Ok [])
                      [Raise (RequestError (lit "network")); Ok (lit "ok")])
                   (lit "en-US") (Some update_progress) 2
                   (enumerate [[1]; [2]]) []))
  = [Call_recognize 0; Sleep; Call_recognize 1; Sleep].
Proof.
  apply (one_request_per_segment
           (example_world [] (Ok [])
              [Raise (RequestError (lit "network")); Ok (lit "ok")])
           (lit "en-US") (Some update_progress) 2 [[1]; [2]] []).
  right. reflexivity.
Defined.

(** ** Progress reports *)

Lemma split_audio_into_chunks_eta (w : World) (L : Z) :
  split_audio_into_chunks w L
  = (trace (split_audio_into_chunks w L), Ok (returned_chunks w L)).
Proof.
  unfold returned_chunks.
  destruct (split_audio_into_chunks_returns w L) as [cs H].
  rewrite (M_eta (split_audio_into_chunks w L)) at 1. now rewrite H.
Qed.

Lemma transcribe_loop_progress (w : World) (language : str) (total : Z)
  (chunks : list AudioSegment) :
  forall (s : Z) (parts : list str),
    progress_values
      (trace (transcribe_loop w language (Some update_progress) total
                              (enumerate_from s chunks) parts))
    = map (fun ic => chunk_progress total (fst ic)) (enumerate_from s chunks).
Proof.
  induction chunks as [| c chunks IH]; intros s parts; [reflexivity |].
  cbn [enumerate_from transcribe_loop map fst].
  rewrite trace_bind. cbn [report update_progress emit outcome snd trace fst].
  cbn [app progress_values progress_value].
  rewrite trace_bind, transcribe_audio_chunk_returns, progress_values_app.
  rewrite transcribe_audio_chunk_no_progress.
  rewrite trace_bind. cbn [emit outcome snd trace fst app progress_values progress_value].
  now rewrite IH.
Qed.

Lemma chunk_progress_bounds (total i : Z) :
  0 <= i < total -> 30 <= chunk_progress total i <= 89.
Proof.
  intros H. unfold chunk_progress.
  assert (0 <= 60 * i / total) by (apply Z.div_pos; lia).
  assert (60 * i / total < 60) by (apply Z.div_lt_upper_bound; lia).
  lia.
Qed.

Lemma chunk_progress_mono (total i j : Z) :
  0 < total -> i <= j -> chunk_progress total i <= chunk_progress total j.
Proof.
  intros Ht H. unfold chunk_progress.
  assert (60 * i / total <= 60 * j / total) by (apply Z.div_le_mono; lia).
  lia.
Qed.

Lemma enumerate_from_bounds {A : Type} (s : Z) (l : list A) :
  Forall (fun ic => s <= fst ic < s + len l) (enumerate_from s l).
Proof.
  revert s. induction l as [| x l IH]; intros s; [constructor |].
  cbn [enumerate_from]. constructor.
  - unfold len. simpl fst. simpl length. lia.
  - eapply Forall_impl; [| apply (IH (s + 1))].
    intros ic. unfold len. simpl length. lia.
Qed.

Lemma chunk_progress_sorted {A : Type} (total s : Z) (l : list A) :
  0 < total ->
  StronglySorted Z.le
    (map (fun ic => chunk_progress total (fst ic)) (enumerate_from s l)).
Proof.
  intros Ht. revert s. induction l as [| x l IH]; intros s; [constructor |].
  cbn [enumerate_from map fst]. constructor; [apply IH |].
  apply Forall_map. eapply Forall_impl; [| apply (enumerate_from_bounds (s + 1) l)].
  intros ic H. cbv beta in H. apply chunk_progress_mono; lia.
Qed.

Lemma StronglySorted_app_le (a b : list Z) :
  StronglySorted Z.le a -> StronglySorted Z.le b ->
  (forall x y, In x a -> In y b -> x <= y) ->
  StronglySorted Z.le (a ++ b).
Proof.
  intros Ha Hb Hab. induction a as [| x a IH]; [exact Hb |].
  inversion Ha as [| ? ? Hsa Hfa]; subst. simpl. constructor.
  - apply IH; [exact Hsa |]. intros u v Hu Hv. apply Hab; [now right | exact Hv].
  - apply Forall_app. split; [exact Hfa |].
    apply Forall_forall. intros y Hy. apply Hab; [now left | exact Hy].
Qed.

Lemma report_update_progress (pct : Z) (msg : progress_msg) :
  report (Some update_progress) pct msg = ([St_progress pct msg], Ok tt).
Proof. reflexivity. Qed.

Lemma extraction_failed_progress (w : World) (f : UploadedFile)
  (language : str) (chunk_duration : Z) :
  clip w <> ClipWritten ->
  progress_values
    (trace (transcribe_video w f language chunk_duration (Some update_progress)))
  = [10].
Proof.
  intros Hclip.
  assert (H : exists m, extract_audio_from_video w
                        = ([Call_extract; St_error m], Ok false)).
  { rewrite extract_audio_from_video_spec.
    destruct (clip w); [eauto | congruence | eauto]. }
  destruct H as [m Hex]. unfold transcribe_video.
  rewrite Hex, (cleanup_eta w). cbn [report]. unfold update_progress.
  cbn [emit ret bind try_except try_finally trace fst
       app negb progress_values progress_value].
  now rewrite cleanup_no_progress.
Qed.

(** The percentages a run reports, by how far it gets. *)
Lemma transcribe_video_progress (w : World) (f : UploadedFile) (language : str)
  (chunk_duration : Z) :
  progress_values
    (trace (transcribe_video w f language chunk_duration (Some update_progress)))
  = match clip w with
    | ClipWritten =>
        match returned_chunks w (chunk_duration * 1000) with
        | [] => [10; 20]
        | chunks =>
            [10; 20]
            ++ map (fun ic => chunk_progress (len chunks) (fst ic))
                   (enumerate chunks)
            ++ [95; 100]
        end
    | _ => [10]
    end.
Proof.
  destruct (clip w) as [| | e] eqn:Hclip.
  - apply extraction_failed_progress. congruence.
  - unfold transcribe_video.
    rewrite trace_try_finally, progress_values_app, cleanup_no_progress, app_nil_r.
    rewrite !report_update_progress.
    rewrite extract_audio_from_video_spec, Hclip, split_audio_into_chunks_eta.
    pose proof (split_audio_into_chunks_no_progress w (chunk_duration * 1000))
      as Hsp.
    set (ts := trace (split_audio_into_chunks w (chunk_duration * 1000))) in *.
    destruct (returned_chunks w (chunk_duration * 1000)) as [| c cs].
    + cbn [emit ret bind try_except trace fst app negb].
      repeat (rewrite progress_values_app || cbn [progress_values progress_value app]).
      now rewrite Hsp.
    + assert (Hq : quiet (Some update_progress)) by (intros p msg; reflexivity).
      pose proof (transcribe_loop_progress w language (len (c :: cs)) (c :: cs) 0 [])
        as Hlp.
      fold (enumerate (c :: cs)) in Hlp.
      cbn [bind negb app].
      rewrite (M_eta (transcribe_loop w language (Some update_progress)
                        (len (c :: cs)) (enumerate (c :: cs)) [])).
      rewrite (transcribe_loop_returns _ _ _ _ _ _ Hq).
      set (tl := trace (transcribe_loop w language (Some update_progress)
                          (len (c :: cs)) (enumerate (c :: cs)) [])) in *.
      cbn [emit ret bind try_except trace fst app negb].
      repeat (rewrite progress_values_app || cbn [progress_values progress_value app]).
      now rewrite Hsp, Hlp.
  - apply extraction_failed_progress. congruence.
Qed.

Lemma extraction_failed_outcome (w : World) (f : UploadedFile)
  (language : str) (chunk_duration : Z) :
  clip w <> ClipWritten ->
  outcome (transcribe_video w f language chunk_duration (Some update_progress))
  = Ok None.
Proof.
  intros Hclip. unfold transcribe_video.
  rewrite outcome_try_finally, cleanup_returns, outcome_try_except.
  rewrite outcome_bind, report_update_progress. cbn [outcome snd].
  rewrite outcome_bind, extract_audio_from_video_spec.
  destruct (clip w); [reflexivity | congruence | reflexivity].
Qed.

Lemma returned_chunks_outcome (w : World) (L : Z) :
  outcome (split_audio_into_chunks w L) = Ok (returned_chunks w L).
Proof. now rewrite split_audio_into_chunks_eta at 1. Qed.

(** X7. The percentages [transcribe_video] hands to the progress bar
    never decrease and always lie between 10 and 100: 10, then 20, then for
    chunk [i] of [n] the value [30 + 60 * i div n], which stays below 90, then
    95 and 100.  A run that returns a transcript has reported all of
    them, ending with 100. *)
Theorem progress_reports (w : World) (f : UploadedFile) (language : str)
  (chunk_duration : Z) :
  let run := transcribe_video w f language chunk_duration (Some update_progress) in
  let ps := progress_values (trace run) in
  StronglySorted Z.le ps
  /\ Forall (fun p => 10 <= p <= 100) ps
  /\ (forall t, outcome run = Ok (Some t) ->
      exists chunks : list AudioSegment,
        chunks <> []
        /\ ps = [10; 20]
                ++ map (fun ic => chunk_progress (len chunks) (fst ic))
                       (enumerate chunks)
                ++ [95; 100]).
Proof.
  intros run ps. unfold ps, run. rewrite transcribe_video_progress.
  destruct (clip w) as [| | e] eqn:Hclip.
  - split; [repeat constructor | split; [repeat constructor; lia |]].
    intros t Ht. rewrite extraction_failed_outcome in Ht by congruence.
    discriminate.
  - destruct (returned_chunks w (chunk_duration * 1000)) as [| c cs] eqn:Hcs.
    + split; [repeat constructor; lia | split; [repeat constructor; lia |]].
      intros t Ht.
      assert (Hq : quiet (Some update_progress)) by (intros p msg; reflexivity).
      pose proof (returned_chunks_outcome w (chunk_duration * 1000)) as Ho.
      rewrite Hcs in Ho.
      destruct (transcribe_video_no_chunks w f language chunk_duration _
                  Hq Hclip Ho) as [Hn _].
      congruence.
    + set (total := len (c :: cs)).
      assert (Ht : 0 < total) by (unfold total, len; simpl; lia).
      pose proof (enumerate_from_bounds 0 (c :: cs)) as Hb.
      fold (enumerate (c :: cs)) in Hb. fold total in Hb.
      assert (Hmid : Forall (fun p => 30 <= p <= 89)
                (map (fun ic => chunk_progress total (fst ic))
                     (enumerate (c :: cs)))).
      { apply Forall_map. eapply Forall_impl; [| exact Hb].
        intros ic H. cbv beta in H. apply chunk_progress_bounds. lia. }
      rewrite Forall_forall in Hmid.
      split; [| split].
      * apply StronglySorted_app_le; [repeat constructor; lia | |].
        -- apply StronglySorted_app_le;
             [apply chunk_progress_sorted; exact Ht | repeat constructor; lia |].
           intros x y Hx Hy. apply Hmid in Hx. simpl in Hy. lia.
        -- intros x y Hx Hy. apply in_app_or in Hy. simpl in Hx.
           destruct Hy as [Hy | Hy]; [apply Hmid in Hy | simpl in Hy]; lia.
      * apply Forall_app. split; [repeat constructor; lia |].
        apply Forall_app. split; [| repeat constructor; lia].
        apply Forall_forall. intros p Hp. apply Hmid in Hp. lia.
      * intros t _. exists (c :: cs). split; [discriminate | reflexivity].
  - split; [repeat constructor | split; [repeat constructor; lia |]].
    intros t Ht. rewrite extraction_failed_outcome in Ht by congruence.
    discriminate.
Qed.

(** X7 on a run of three segments: 10, 20, 30, 50, 70, 95, 100. *)
Lemma progress_reports_witness :
  progress_values
    (trace (transcribe_video
              (example_world [1; 2; 3] (Ok [[1]; [2]; [3]])
                             [Ok (lit "a"); Ok (lit "b"); Ok (lit "c")])
              example_file (lit "en-US") 30 (Some update_progress)))
  = [10; 20; 30; 50; 70; 95; 100]
  /\ StronglySorted Z.le
       (progress_values
          (trace (transcribe_video
                    (example_world [1; 2; 3] (Ok [[1]; [2]; [3]])
                                   [Ok (lit "a"); Ok (lit "b"); Ok (lit "c")])
                    example_file (lit "en-US") 30 (Some update_progress)))).
Proof.
  split; [vm_compute; reflexivity |].
  apply (progress_reports
           (example_world [1; 2; 3] (Ok [[1]; [2]; [3]])
                          [Ok (lit "a"); Ok (lit "b"); Ok (lit "c")])
           example_file (lit "en-US") 30).
Defined.

(** ** What the page shows *)




Lemma transcribe_video_calls_extract (w : World) (f : UploadedFile)
  (language : str) (chunk_duration : Z) :
  In Call_extract
     (trace (transcribe_video w f language chunk_duration (Some update_progress))).
Proof.
  unfold transcribe_video. rewrite trace_try_finally. apply in_or_app. left.
  assert (Hbody : forall (m : M (option str)) (h : exn -> M (option str)),
            In Call_extract (trace m) -> In Call_extract (trace (try_except m h))).
  { intros m h H. rewrite trace_try_except.
    destruct (outcome m); [exact H | apply in_or_app; now left]. }
  apply Hbody. rewrite trace_bind, report_update_progress.
  cbn [outcome snd]. apply in_or_app. right.
  rewrite trace_bind, extract_audio_from_video_spec.
  destruct (clip w); cbn [outcome snd trace fst]; try apply in_or_app;
    try left; left; reflexivity.
Qed.

(** X8. [main_app] enters the audio extraction exactly when a file is
    uploaded, its size is at most 200 MiB, its lowercased extension is a
    supported one and the start button was pressed; in every other case
    the pipeline is not started. *)
Theorem pipeline_starts_iff (w : World) (uploaded_file : option UploadedFile)
  (start_clicked : bool) (language : str) (chunk_duration : Z) :
  In Call_extract
     (trace (main_app w uploaded_file start_clicked language chunk_duration))
  <-> exists f, uploaded_file = Some f /\ start_clicked = true
                /\ passes_validation w f.
Proof.
  split.
  - destruct uploaded_file as [f |]; [| simpl; tauto].
    unfold main_app. fold (extension w f).
    destruct (Z.ltb_spec MAX_FILE_SIZE (len (getvalue f))) as [Hs | Hs].
    { simpl. intros [H | []]. discriminate. }
    destruct (str_in (unicode_lower w (extension w f)) SUPPORTED_VIDEO_FORMATS)
      eqn:He; cbn [negb].
    + destruct start_clicked.
      * intros _. exists f. repeat split; [exact Hs | now apply str_in_In].
      * simpl. intros [H | [H | []]]; discriminate.
    + simpl. intros [H | []]. discriminate.
  - intros (f & -> & -> & Hvalid). rewrite (main_app_run _ _ _ _ Hvalid).
    assert (Hin := transcribe_video_calls_extract w f language chunk_duration).
    rewrite trace_bind. cbn [emit outcome snd]. apply in_or_app. right.
    rewrite trace_bind. cbn [emit outcome snd]. apply in_or_app. right.
    rewrite trace_bind.
    destruct (outcome (transcribe_video w f language chunk_duration
                                        (Some update_progress)));
      [apply in_or_app; left; exact Hin | exact Hin].
Qed.

(** X8 on a valid upload with the button pressed, and with it not pressed. *)
Lemma pipeline_starts_iff_witness :
  In Call_extract
     (trace (main_app (example_world [1] (Ok [[1]]) [Ok (lit "hi")])
                      (Some example_file) true (lit "en-US") 30))
  /\ ~ In Call_extract
          (trace (main_app (example_world [1] (Ok [[1]]) [Ok (lit "hi")])
                           (Some example_file) false (lit "en-US") 30)).
Proof.
  split.
  - apply (pipeline_starts_iff (example_world [1] (Ok [[1]]) [Ok (lit "hi")])
             (Some example_file) true (lit "en-US") 30).
    exists example_file. repeat split; [decide_le | decide_in].
  - intros H.
    apply (pipeline_starts_iff (example_world [1] (Ok [[1]]) [Ok (lit "hi")])
             (Some example_file) false (lit "en-US") 30) in H.
    destruct H as (f & _ & H & _). discriminate.
Defined.




(** ** Segmentation outcomes *)

(** X10. When silence-based splitting finds two segments or more,
    [split_audio_into_chunks] returns them as they are, silently, whatever
    the chunk length: the configured chunk duration then has no effect on
    what [transcribe_video] does or returns. *)
Theorem silence_segments_used_as_is (w : World) (audio : AudioSegment)
  (chunks : list AudioSegment) :
  from_wav w = Ok audio ->
  split_on_silence w audio = Ok chunks ->
  2 <= len chunks ->
  (forall L, split_audio_into_chunks w L = ([], Ok chunks))
  /\ (forall f language d1 d2 cb,
        transcribe_video w f language d1 cb = transcribe_video w f language d2 cb).
Proof.
  intros Hwav Hsil Hlen.
  assert (H : forall L, split_audio_into_chunks w L = ([], Ok chunks)).
  { intros L. unfold split_audio_into_chunks. rewrite Hwav. cbn [lift bind app].
    rewrite Hsil. cbn [lift bind app].
    replace (len chunks <=? 1) with false
      by (symmetry; apply Z.leb_gt; lia).
    reflexivity. }
  split; [exact H |]. intros f language d1 d2 cb.
  unfold transcribe_video. now rewrite (H (d1 * 1000)), (H (d2 * 1000)).
Qed.

(** X10 on a waveform split at its silence into two segments. *)
Lemma silence_segments_used_as_is_witness :
  split_audio_into_chunks (example_world [1; 2; 3] (Ok [[1]; [2; 3]]) []) 30000
  = ([], Ok [[1]; [2; 3]])
  /\ transcribe_video (example_world [1; 2; 3] (Ok [[1]; [2; 3]]) [])
                      example_file (lit "en-US") 10 None
     = transcribe_video (example_world [1; 2; 3] (Ok [[1]; [2; 3]]) [])
                        example_file (lit "en-US") 60 None.
Proof.
  destruct (silence_segments_used_as_is
              (example_world [1; 2; 3] (Ok [[1]; [2; 3]]) [])
              [1; 2; 3] [[1]; [2; 3]] eq_refl eq_refl) as [H1 H2].
  - decide_le.
  - split; [apply H1 | apply H2].
Defined.

(** X11. [split_audio_into_chunks] never raises: it either returns
    silently, or returns the empty list after exactly one error message.
    When the waveform cannot be loaded the message carries the text of the
    exception, and [transcribe_video] then adds the segmentation error,
    asks the recognition service nothing and returns no transcript. *)
Theorem split_audio_into_chunks_failure_modes (w : World) (L : Z) :
  (exists chunks,
     outcome (split_audio_into_chunks w L) = Ok chunks
     /\ (trace (split_audio_into_chunks w L) = []
         \/ (chunks = []
             /\ exists e, trace (split_audio_into_chunks w L)
                          = [St_error (MsgSplitError e)])))
  /\ (forall e, from_wav w = Raise e ->
      split_audio_into_chunks w L
      = ([St_error (MsgSplitError (exn_str e))], Ok [])
      /\ (clip w = ClipWritten ->
          forall f language chunk_duration,
            transcribe_video w f language chunk_duration None
            = ([Call_extract; St_error (MsgSplitError (exn_str e));
                St_error MsgSplitFailed] ++ trace (cleanup w), Ok None))).
Proof.
  split.
  - unfold split_audio_into_chunks.
    destruct (from_wav w) as [audio | e]; cbn [lift bind app];
      [| exists []; split; [reflexivity | right; split; [reflexivity | eexists; reflexivity]]].
    destruct (split_on_silence w audio) as [cs | e]; cbn [lift bind app try_except].
    + destruct (len cs <=? 1); cbn [ret bind app try_except].
      * destruct (fixed_length_chunks audio L) as [fs | e];
          cbn [bind app try_except ret emit].
        -- exists fs. split; [reflexivity | now left].
        -- exists []. split; [reflexivity | right; split; [reflexivity | eexists; reflexivity]].
      * exists cs. split; [reflexivity | now left].
    + destruct (fixed_length_chunks audio L) as [fs | e'];
        cbn [bind app try_except ret emit].
      * exists fs. split; [reflexivity | now left].
      * exists []. split; [reflexivity | right; split; [reflexivity | eexists; reflexivity]].
  - intros e Hwav.
    assert (H : forall L', split_audio_into_chunks w L'
                = ([St_error (MsgSplitError (exn_str e))], Ok [])).
    { intros L'. unfold split_audio_into_chunks. now rewrite Hwav. }
    split; [apply H |]. intros Hclip f language chunk_duration.
    unfold transcribe_video.
    rewrite extract_audio_from_video_spec, Hclip, H, (cleanup_eta w).
    reflexivity.
Qed.

(** X11 on a waveform file that cannot be read. *)
Lemma split_audio_into_chunks_failure_modes_witness :
  transcribe_video
    {| clip := ClipWritten; from_wav := Raise (OtherException (lit "bad header"));
       split_on_silence := fun _ => Ok [];
       recognize := fun _ _ _ => Ok (lit "never asked");
       unlink := fun _ => Ok tt; unicode_lower := map ascii_lower;
       os_sep := 47%N; os_altsep := None |}
    example_file (lit "en-US") 30 None
  = ([Call_extract; St_error (MsgSplitError (lit "bad header"));
      St_error MsgSplitFailed; Unlink TempAudio; Unlink TempVideo], Ok None).
Proof.
  destruct (split_audio_into_chunks_failure_modes
    {| clip := ClipWritten; from_wav := Raise (OtherException (lit "bad header"));
       split_on_silence := fun _ => Ok [];
       recognize := fun _ _ _ => Ok (lit "never asked");
       unlink := fun _ => Ok tt; unicode_lower := map ascii_lower;
       os_sep := 47%N; os_altsep := None |} 30000) as [_ H].
  destruct (H (OtherException (lit "bad header")) eq_refl) as [_ Hrun].
  rewrite (Hrun eq_refl). reflexivity.
Defined.

(** ** The returned transcript *)

(** A transcript [transcribe_video] returns is assembled from the chunks
    the segmentation returned, whatever the callback does. *)
Lemma transcribe_video_some_chunks (w : World) (f : UploadedFile)
  (language : str) (chunk_duration : Z) (cb : option callback) (t : str) :
  outcome (transcribe_video w f language chunk_duration cb) = Ok (Some t) ->
  t = join (lit " ")
        (stripped_nonempty
           (segment_texts w language
              (returned_chunks w (chunk_duration * 1000))))
  /\ truthy (strip t) = true.
Proof.
  unfold transcribe_video.
  rewrite outcome_try_finally, cleanup_returns, outcome_try_except.
  match goal with |- context [outcome ?m] => destruct (outcome m) eqn:E end;
    [| discriminate].
  intros [= ->].
  apply bind_returns in E. destruct E as (u & _ & E).
  apply bind_returns in E. destruct E as (b & _ & E).
  destruct (negb b); [discriminate |].
  apply bind_returns in E. destruct E as (u' & _ & E).
  apply bind_returns in E. destruct E as (chunks & Hch & E).
  rewrite returned_chunks_outcome in Hch. injection Hch as <-.
  destruct (returned_chunks w (chunk_duration * 1000)) as [| c chunks];
    [discriminate |].
  apply bind_returns in E. destruct E as (parts & Hparts & E).
  apply bind_returns in E. destruct E as (u1 & _ & E).
  apply bind_returns in E. destruct E as (u2 & _ & E).
  cbn [ret outcome snd] in E.
  destruct (truthy (strip (join (lit " ") parts))) eqn:Et; [| discriminate].
  injection E as <-. apply transcribe_loop_parts in Hparts.
  split; [| exact Et]. rewrite Hparts. reflexivity.
Qed.




(** ** Word counts of segments and transcript *)

Lemma count_tokens_all_space (st : bool) (v : str) :
  Forall (fun c => isspace c = true) v -> count_tokens st v = 0%nat.
Proof.
  revert st. induction v as [| c v IH]; intros st H; [reflexivity |].
  inversion H as [| ? ? Hc Hv]; subst. simpl. rewrite Hc. now apply IH.
Qed.

Lemma count_tokens_app_spaces (st : bool) (a v : str) :
  Forall (fun c => isspace c = true) v ->
  count_tokens st (a ++ v) = count_tokens st a.
Proof.
  intros Hv. revert st. induction a as [| c a IH]; intros st.
  - now apply count_tokens_all_space.
  - simpl. destruct (isspace c); now rewrite IH.
Qed.

Lemma count_tokens_app_space (st : bool) (a b : str) :
  count_tokens st (a ++ space :: b)
  = (count_tokens st a + count_tokens true b)%nat.
Proof.
  revert st. induction a as [| c a IH]; intros st.
  - reflexivity.
  - simpl. destruct (isspace c); rewrite IH; lia.
Qed.

Lemma count_tokens_lstrip (s : str) :
  count_tokens true (lstrip s) = count_tokens true s.
Proof.
  induction s as [| c s IH]; [reflexivity |]. simpl.
  destruct (isspace c) eqn:E; [exact IH |]. simpl. now rewrite E.
Qed.

Lemma lstrip_suffix_spaces (s : str) :
  exists v, s = v ++ lstrip s /\ Forall (fun c => isspace c = true) v.
Proof.
  induction s as [| c s (v & IH & Hv)]; [exists []; split; [reflexivity | constructor] |].
  simpl. destruct (isspace c) eqn:E.
  - exists (c :: v). split; [simpl; now f_equal | now constructor].
  - exists []. split; [reflexivity | constructor].
Qed.

Lemma rstrip_prefix_spaces (s : str) :
  exists v, s = rstrip s ++ v /\ Forall (fun c => isspace c = true) v.
Proof.
  unfold rstrip. destruct (lstrip_suffix_spaces (rev s)) as (v & Hv & Hs).
  exists (rev v). split; [| now apply Forall_rev].
  rewrite <- rev_app_distr, <- Hv. now rewrite rev_involutive.
Qed.

Lemma count_tokens_strip (s : str) :
  count_tokens true (strip s) = count_tokens true s.
Proof.
  unfold strip. destruct (rstrip_prefix_spaces (lstrip s)) as (v & Hv & Hs).
  transitivity (count_tokens true (lstrip s)); [| apply count_tokens_lstrip].
  remember (rstrip (lstrip s)) as u. rewrite Hv.
  now rewrite count_tokens_app_spaces.
Qed.

Lemma token_count_join (parts : list str) :
  token_count (join [space] parts) = sum_Z (map token_count parts).
Proof.
  induction parts as [| p rest IH]; [reflexivity |].
  destruct rest as [| q rest].
  - simpl. lia.
  - rewrite join_cons2.
    change (sum_Z (map token_count (p :: q :: rest)))
      with (token_count p + sum_Z (map token_count (q :: rest))).
    rewrite <- IH. unfold token_count.
    change (p ++ [space] ++ join [space] (q :: rest))
      with (p ++ space :: join [space] (q :: rest)).
    rewrite count_tokens_app_space. lia.
Qed.

Lemma token_count_stripped_nonempty (texts : list str) :
  sum_Z (map token_count (stripped_nonempty texts))
  = sum_Z (map token_count texts).
Proof.
  induction texts as [| x texts IH]; [reflexivity |].
  rewrite stripped_nonempty_cons.
  change (sum_Z (map token_count (x :: texts)))
    with (token_count x + sum_Z (map token_count texts)).
  rewrite <- IH.
  assert (Hx : token_count (strip x) = token_count x).
  { unfold token_count. now rewrite count_tokens_strip. }
  destruct (strip x) as [| c r] eqn:E.
  - cbn [truthy]. rewrite <- Hx. reflexivity.
  - cbn [truthy].
    change (sum_Z (map token_count ((c :: r) :: stripped_nonempty texts)))
      with (token_count (c :: r)
            + sum_Z (map token_count (stripped_nonempty texts))).
    now rewrite Hx.
Qed.

(** X13. The word count of a transcript [transcribe_video] returns is the
    sum of the word counts of the segment texts it was assembled from:
    stripping, dropping empty texts and joining by single spaces neither
    merge nor split words. *)
Theorem word_count_adds_up (w : World) (f : UploadedFile) (language : str)
  (chunk_duration : Z) (cb : option callback) (t : str) :
  outcome (transcribe_video w f language chunk_duration cb) = Ok (Some t) ->
  len (split_ws t)
  = sum_Z (map (fun s => len (split_ws s))
               (segment_texts w language
                  (returned_chunks w (chunk_duration * 1000)))).
Proof.
  intros H. destruct (transcribe_video_some_chunks _ _ _ _ _ _ H) as [-> _].
  rewrite split_ws_length. change (lit " ") with [space].
  rewrite token_count_join, token_count_stripped_nonempty.
  f_equal. apply map_ext. intros s. now rewrite split_ws_length.
Qed.

(** X13 on segments heard as " good morning ", nothing, and "to you all". *)
Lemma word_count_adds_up_witness :
  len (split_ws (lit "good morning to you all")) = 2 + 0 + 3.
Proof.
  change (2 + 0 + 3)
    with (sum_Z (map (fun s => len (split_ws s))
            (segment_texts
               (example_world [1; 2; 3] (Ok [[1]; [2]; [3]])
                  [Ok (lit " good morning "); Raise UnknownValueError;
                   Ok (lit "to you all")])
               (lit "en-US")
               (returned_chunks
                  (example_world [1; 2; 3] (Ok [[1]; [2]; [3]])
                     [Ok (lit " good morning "); Raise UnknownValueError;
                      Ok (lit "to you all")])
                  (30 * 1000))))).
  apply (word_count_adds_up
           (example_world [1; 2; 3] (Ok [[1]; [2]; [3]])
              [Ok (lit " good morning "); Raise UnknownValueError;
               Ok (lit "to you all")])
           example_file (lit "en-US") 30 None).
  vm_compute. reflexivity.
Defined.

(** ** Dependency check and installer *)

Lemma find_missing_filter (import_ : str -> import_outcome)
  (packages missing : list str) :
  (forall p, In p packages -> ~ import_crashes (import_ p)) ->
  find_missing import_ packages missing
  = Ok (missing ++ filter (fun p => is_import_error (import_ p)) packages).
Proof.
  revert missing. induction packages as [| p rest IH]; intros missing H.
  - simpl. now rewrite app_nil_r.
  - cbn [find_missing filter].
    assert (Hrest : forall q, In q rest -> ~ import_crashes (import_ q))
      by (intros q Hq; apply H; now right).
    pose proof (H p (or_introl eq_refl)) as Hp.
    destruct (import_ p) as [| | e]; cbn [is_import_error].
    + now apply IH.
    + rewrite (IH _ Hrest), <- app_assoc. reflexivity.
    + exfalso. apply Hp. now exists e.
Qed.

(** X14. Provided no import fails with anything but [ImportError],
    [check_dependencies] returns [True] silently exactly when all four
    packages import; otherwise it returns [False] after listing the packages
    that do not import, each on its own line and in the order streamlit,
    speech_recognition, pydub, moviepy, and showing the command
    "pip install" followed by exactly those names separated by spaces. *)
Theorem check_dependencies_report (import_ : str -> import_outcome) :
  (forall p, In p required_packages -> ~ import_crashes (import_ p)) ->
  let missing :=
    filter (fun p => is_import_error (import_ p)) required_packages in
  check_dependencies import_
  = match missing with
    | [] => ([], Ok true)
    | _ :: _ =>
        ([Dep_error_header] ++ map Dep_error_package missing
         ++ [Dep_info_install;
             Dep_code (lit "pip install " ++ join (lit " ") missing)],
         Ok false)
    end
  /\ (snd (check_dependencies import_) = Ok true
      <-> forall p, In p required_packages -> import_ p = Imported).
Proof.
  intros H missing. unfold check_dependencies.
  rewrite (find_missing_filter import_ required_packages [] H).
  cbn [app]. fold missing. split; [now destruct missing |].
  split.
  - intros Hok p Hp.
    assert (Hm : missing = []) by (destruct missing; [reflexivity | discriminate]).
    assert (Hnot : ~ In p missing) by (rewrite Hm; simpl; tauto).
    unfold missing in Hnot. rewrite filter_In in Hnot.
    destruct (import_ p) as [| | e] eqn:E; [reflexivity | |].
    + exfalso. apply Hnot. split; [exact Hp | reflexivity].
    + exfalso. apply (H p Hp). exists e. exact E.
  - intros Hall.
    assert (Hm : missing = []).
    { destruct missing as [| q rest] eqn:E; [reflexivity |].
      assert (Hq : In q missing) by (rewrite E; now left).
      unfold missing in Hq. apply filter_In in Hq. destruct Hq as [Hq1 Hq2].
      rewrite (Hall q Hq1) in Hq2. discriminate. }
    now rewrite Hm.
Qed.

(** X14 when pydub and moviepy are not installed. *)
Lemma check_dependencies_report_witness :
  check_dependencies
    (fun p => if str_in p [lit "pydub"; lit "moviepy"] then ImportError
              else Imported)
  = ([Dep_error_header; Dep_error_package (lit "pydub");
      Dep_error_package (lit "moviepy"); Dep_info_install;
      Dep_code (lit "pip install pydub moviepy")], Ok false).
Proof.
  refine (proj1 (check_dependencies_report
            (fun p => if str_in p [lit "pydub"; lit "moviepy"] then ImportError
                      else Imported) _)).
  intros p _ [e He]. destruct (str_in p _); discriminate.
Defined.

(** X15. Run as a script, the file never shows the missing-packages
    report of [check_dependencies]: its own imports at the head of the file
    come first, so either one of them fails and the script stops there, or
    all of them succeed and then every required package imports and the
    page is drawn.  The one thing assumed of the import system is that the
    submodule [moviepy.editor] cannot be imported without the package
    [moviepy]. *)
Theorem dependency_report_unreachable (import_ : str -> import_outcome) :
  (import_ (lit "moviepy.editor") = Imported ->
   import_ (lit "moviepy") = Imported) ->
  entry_point import_ = App_runs
  \/ exists m o, entry_point import_ = Load_fails m o
                 /\ In m module_imports /\ import_ m = o /\ o <> Imported.
Proof.
  intros Hsub. unfold entry_point, module_imports, check_dependencies,
    required_packages. cbn [first_failure find_missing].
  destruct (import_ (lit "streamlit")) eqn:E1;
    [| right; do 2 eexists; split; [reflexivity |];
       split; [decide_in | split; [exact E1 | discriminate]] ..].
  destruct (import_ (lit "speech_recognition")) eqn:E2;
    [| right; do 2 eexists; split; [reflexivity |];
       split; [decide_in | split; [exact E2 | discriminate]] ..].
  destruct (import_ (lit "pydub")) eqn:E3;
    [| right; do 2 eexists; split; [reflexivity |];
       split; [decide_in | split; [exact E3 | discriminate]] ..].
  destruct (import_ (lit "pydub.silence")) eqn:E4;
    [| right; do 2 eexists; split; [reflexivity |];
       split; [decide_in | split; [exact E4 | discriminate]] ..].
  destruct (import_ (lit "moviepy.editor")) eqn:E5;
    [| right; do 2 eexists; split; [reflexivity |];
       split; [decide_in | split; [exact E5 | discriminate]] ..].
  left. now rewrite (Hsub eq_refl).
Qed.

(** X15 when moviepy is not installed: loading stops at its import. *)
Lemma dependency_report_unreachable_witness :
  entry_point
    (fun p => if startswith (lit "moviepy") p then ImportError else Imported)
  = Load_fails (lit "moviepy.editor") ImportError.
Proof.
  destruct (dependency_report_unreachable
              (fun p => if startswith (lit "moviepy") p then ImportError
                        else Imported)) as [H | (m & o & H & _)].
  - discriminate.
  - vm_compute in H. discriminate.
  - rewrite H. vm_compute in H. injection H as <- <-. reflexivity.
Defined.

Lemma pip_commands_differ : Pip_run pip_upgrade_args <> Pip_run pip_install_args.
Proof. intros H. vm_compute in H. discriminate. Qed.

(** X16. [install_requirements] does nothing unless its button is
    pressed.  It runs the package installation only after the pip upgrade
    exited with status zero, announces success only when both commands did,
    and shows an error only when one of them exited otherwise; a command
    that cannot be run at all ends the function with that exception, without
    any message. *)
Theorem install_requirements_reports (clicked : bool)
  (run : list str -> run_outcome) :
  let shown := fst (install_requirements clicked run) in
  let upgraded := run pip_upgrade_args = Exit_zero in
  (clicked = false -> install_requirements clicked run = ([], Ok tt))
  /\ (In (Pip_run pip_install_args) shown <-> clicked = true /\ upgraded)
  /\ (In Install_success shown
      <-> clicked = true /\ upgraded /\ run pip_install_args = Exit_zero)
  /\ (forall e, In (Install_error e) shown <->
        clicked = true
        /\ (run pip_upgrade_args = CalledProcessError e
            \/ (upgraded /\ run pip_install_args = CalledProcessError e)))
  /\ (forall e, snd (install_requirements clicked run) = Raise e <->
        clicked = true
        /\ (run pip_upgrade_args = Run_raises e
            \/ (upgraded /\ run pip_install_args = Run_raises e))).
Proof.
  pose proof pip_commands_differ as Hd.
  unfold install_requirements.
  destruct clicked; cbn zeta.
  2:{ split; [reflexivity |]. simpl.
      repeat split; try tauto; intros; try tauto; try discriminate;
        try (destruct H; discriminate). }
  split; [discriminate |].
  destruct (run pip_upgrade_args) as [| e1 | e1] eqn:E1;
    [destruct (run pip_install_args) as [| e2 | e2] eqn:E2 | |];
    cbn [fst snd In];
    repeat match goal with
           | |- _ /\ _ => split
           | |- forall _, _ => intro
           | |- _ <-> _ => split; intro
           end;
    repeat match goal with
           | H : _ /\ _ |- _ => destruct H
           | H : _ \/ _ |- _ => destruct H
           | H : False |- _ => destruct H
           | H : Pip_run pip_upgrade_args = Pip_run pip_install_args |- _ =>
               destruct (Hd H)
           | H : Install_error _ = Install_error _ |- _ =>
               injection H as H; try subst
           | H : CalledProcessError _ = CalledProcessError _ |- _ =>
               injection H as H; try subst
           | H : Raise _ = Raise _ |- _ => injection H as H; try subst
           | H : Run_raises _ = Run_raises _ |- _ =>
               injection H as H; try subst
           end;
    try discriminate; try congruence; auto 6.
Qed.

(** X16 when the pip upgrade exits with an error: no installation. *)
Lemma install_requirements_reports_witness :
  install_requirements true
    (fun args => if (length args =? 5)%nat
                 then CalledProcessError (lit "exit status 1") else Exit_zero)
  = ([Pip_run pip_upgrade_args; Install_error (lit "exit status 1")], Ok tt)
  /\ ~ In (Pip_run pip_install_args)
          (fst (install_requirements true
                  (fun args => if (length args =? 5)%nat
                               then CalledProcessError (lit "exit status 1")
                               else Exit_zero))).
Proof.
  split; [reflexivity |]. intros H.
  apply (install_requirements_reports true
           (fun args => if (length args =? 5)%nat
                        then CalledProcessError (lit "exit status 1")
                        else Exit_zero)) in H.
  destruct H as [_ H]. discriminate.
Defined.

(** ** File names and extensions *)

Lemma rfind_from_spec (c : char) (s : str) :
  forall (i acc : Z),
    let r := fold_left (fun found ix => if (snd ix =? c)%N then fst ix else found)
                       (enumerate_from i s) acc in
    (r = acc /\ ~ In c s)
    \/ (i <= r < i + len s
        /\ nth_error s (Z.to_nat (r - i)) = Some c
        /\ ~ In c (skipn (S (Z.to_nat (r - i))) s)).
Proof.
  induction s as [| x s IH]; intros i acc; cbv zeta.
  - left. split; [reflexivity | simpl; tauto].
  - cbn [enumerate_from fold_left fst snd].
    specialize (IH (i + 1) (if (x =? c)%N then i else acc)).
    cbv zeta in IH.
    remember (fold_left
                (fun found ix => if (snd ix =? c)%N then fst ix else found)
                (enumerate_from (i + 1) s) (if (x =? c)%N then i else acc))
      as r' eqn:Er. clear Er.
    assert (Hlen : len (x :: s) = len s + 1) by (unfold len; simpl length; lia).
    destruct IH as [[Hr Hn] | (Hb & Hnth & Hskip)].
    + destruct (N.eqb_spec x c) as [-> | Hx].
      * right. rewrite Hr. replace (i - i) with 0 by lia.
        split; [unfold len in *; lia | split; [reflexivity | exact Hn]].
      * left. split; [exact Hr |]. simpl. intros [H | H]; [congruence | tauto].
    + right. rewrite Hlen. split; [lia |].
      replace (Z.to_nat (r' - i)) with (S (Z.to_nat (r' - (i + 1)))) by lia.
      split; [exact Hnth | exact Hskip].
Qed.

(** [rfind] returns -1 when the character does not occur, and otherwise the
    index of its last occurrence. *)
Lemma rfind_spec (c : char) (s : str) :
  (rfind c s = -1 /\ ~ In c s)
  \/ (0 <= rfind c s < len s
      /\ nth_error s (Z.to_nat (rfind c s)) = Some c
      /\ ~ In c (skipn (S (Z.to_nat (rfind c s))) s)).
Proof.
  pose proof (rfind_from_spec c s 0 (-1)) as H. cbv zeta in H.
  fold (enumerate s) in H. fold (rfind c s) in H.
  rewrite Z.sub_0_r in H. exact H.
Qed.

Lemma skipn_nth_error {A : Type} (l : list A) (n : nat) (x : A) :
  nth_error l n = Some x -> skipn n l = x :: skipn (S n) l.
Proof.
  revert l. induction n as [| n IH]; intros [| y l] H; try discriminate.
  - simpl in H. now injection H as ->.
  - simpl in H. now apply IH.
Qed.

Lemma in_skipn_le {A : Type} (x : A) (l : list A) (n m : nat) :
  (n <= m)%nat -> In x (skipn m l) -> In x (skipn n l).
Proof.
  intros Hnm H. replace m with ((m - n) + n)%nat in H by lia.
  rewrite <- skipn_skipn in H.
  rewrite <- (firstn_skipn (m - n) (skipn n l)). apply in_or_app. now right.
Qed.

(** After the last occurrence of a character there is no other. *)
Lemma rfind_none_after (c : char) (s : str) (n : nat) :
  rfind c s < Z.of_nat n -> ~ In c (skipn n s).
Proof.
  intros Hlt Hin. destruct (rfind_spec c s) as [[_ Hn] | (Hb & _ & Hs)].
  - apply Hn. apply (in_skipn_le c s 0 n); [lia | exact Hin].
  - apply Hs. apply (in_skipn_le c s _ n); [lia | exact Hin].
Qed.

(** X17. [os.path.splitext] cuts the name in two parts that put together
    are the name again.  The extension is either empty or a period followed
    by characters among which there is no period and no path separator. *)
Theorem splitext_parts (sep : char) (altsep : option char) (p : str) :
  let root := fst (splitext sep altsep p) in
  let ext := snd (splitext sep altsep p) in
  root ++ ext = p
  /\ (ext = []
      \/ exists e, ext = period :: e
                   /\ ~ In period e /\ ~ In sep e
                   /\ forall a, altsep = Some a -> ~ In a e).
Proof.
  unfold splitext.
  set (sepIndex := match altsep with
                   | Some a => Z.max (rfind sep p) (rfind a p)
                   | None => rfind sep p
                   end).
  set (dotIndex := rfind period p).
  change (rfind 46%N p) with dotIndex.
  destruct (sepIndex <? dotIndex) eqn:Hlt; cbn [andb];
    [| cbn [fst snd]; split; [apply app_nil_r | now left]].
  destruct (existsb _ _); cbn [fst snd];
    [| split; [apply app_nil_r | now left]].
  split; [apply firstn_skipn |]. right.
  apply Z.ltb_lt in Hlt.
  assert (Hsep : rfind sep p <= sepIndex)
    by (unfold sepIndex; destruct altsep; lia).
  destruct (rfind_spec period p) as [[Hr _] | (Hb & Hnth & Hafter)].
  { exfalso. fold dotIndex in Hr.
    destruct (rfind_spec sep p) as [[H1 _] | (H1 & _)]; lia. }
  fold dotIndex in Hb, Hnth, Hafter.
  exists (skipn (S (Z.to_nat dotIndex)) p).
  split; [now apply skipn_nth_error | split; [exact Hafter | split]].
  - apply rfind_none_after. lia.
  - intros a ->. apply rfind_none_after. unfold sepIndex in Hlt. lia.
Qed.

(** X17 on a path with a dotted directory and a double extension. *)
Lemma splitext_parts_witness :
  splitext 47%N None (lit "my.videos/holiday.final.MP4")
  = (lit "my.videos/holiday.final", lit ".MP4")
  /\ fst (splitext 47%N None (lit "my.videos/holiday.final.MP4"))
     ++ snd (splitext 47%N None (lit "my.videos/holiday.final.MP4"))
     = lit "my.videos/holiday.final.MP4".
Proof.
  split; [vm_compute; reflexivity |].
  apply (splitext_parts 47%N None (lit "my.videos/holiday.final.MP4")).
Defined.





(** ** Time stamps *)

Lemma format_02d_two_digits (x : Z) :
  0 <= x < 100 -> format_02d x = two_digits x.
Proof.
  intros H.
  assert (Hall : forallb (fun k => str_eqb (format_02d (Z.of_nat k))
                                           (two_digits (Z.of_nat k)))
                         (seq 0 100) = true) by (vm_compute; reflexivity).
  rewrite forallb_forall in Hall.
  specialize (Hall (Z.to_nat x)). rewrite Z2Nat.id in Hall by lia.
  apply str_eqb_eq, Hall, in_seq. lia.
Qed.

(** X19. For a time of less than one hundred hours, the stamp
    [create_srt_content] writes has the fixed shape HH:MM:SS,000 of twelve
    characters, and its hours, minutes below 60 and seconds below 60 add up
    to the time again: the stamp can be read back without loss. *)
Theorem render_time_shape (t : Z) :
  0 <= t < 360000 ->
  exists h m s,
    0 <= h < 100 /\ 0 <= m < 60 /\ 0 <= s < 60
    /\ t = h * 3600 + m * 60 + s
    /\ render_time t
       = two_digits h ++ lit ":" ++ two_digits m ++ lit ":" ++ two_digits s
         ++ lit ",000"
    /\ len (render_time t) = 12.
Proof.
  intros Ht. exists (t / 3600), ((t mod 3600) / 60), (t mod 60).
  pose proof (Z.div_mod t 3600 ltac:(lia)) as H1.
  pose proof (Z.mod_pos_bound t 3600 ltac:(lia)) as H2.
  pose proof (Z.div_mod (t mod 3600) 60 ltac:(lia)) as H3.
  pose proof (Z.mod_pos_bound (t mod 3600) 60 ltac:(lia)) as H4.
  assert (H5 : t mod 60 = (t mod 3600) mod 60).
  { rewrite H1 at 1.
    replace (3600 * (t / 3600) + t mod 3600)
      with (t mod 3600 + (60 * (t / 3600)) * 60) by lia.
    apply Z_mod_plus_full. }
  assert (Hh : 0 <= t / 3600 < 100).
  { split; [apply Z.div_pos; lia | apply Z.div_lt_upper_bound; lia]. }
  assert (Hm : 0 <= (t mod 3600) / 60 < 60).
  { split; [apply Z.div_pos; lia | apply Z.div_lt_upper_bound; lia]. }
  assert (Hs : 0 <= t mod 60 < 60) by (apply Z.mod_pos_bound; lia).
  assert (Hr : render_time t
       = two_digits (t / 3600) ++ lit ":" ++ two_digits ((t mod 3600) / 60)
         ++ lit ":" ++ two_digits (t mod 60) ++ lit ",000").
  { unfold render_time. now rewrite !format_02d_two_digits by lia. }
  split; [exact Hh | split; [exact Hm | split; [exact Hs | split; [lia |]]]].
  split; [exact Hr |]. rewrite Hr. reflexivity.
Qed.

(** X19 on one hour, one minute and one second. *)
Lemma render_time_shape_witness :
  render_time 3661 = lit "01:01:01,000" /\ len (render_time 3661) = 12.
Proof.
  split; [vm_compute; reflexivity |].
  destruct (render_time_shape 3661) as (h & m & s & _ & _ & _ & _ & _ & H).
  - lia.
  - exact H.
Defined.

(** ** A failing callback *)

(** X20. If the progress callback raises when it is first invoked,
    [transcribe_video] catches the exception, shows it as a general
    processing error, never reaches the audio extraction, still removes
    its temporary files and returns no transcript. *)
Theorem callback_failure_is_reported (w : World) (f : UploadedFile)
  (language : str) (chunk_duration : Z) (cb : callback)
  (shown : list event) (e : exn) :
  cb 10 PExtracting = (shown, Raise e) ->
  transcribe_video w f language chunk_duration (Some cb)
  = (shown ++ [St_error (MsgGeneralError (exn_str e))] ++ trace (cleanup w),
     Ok None).
Proof.
  intros H. unfold transcribe_video. cbn [report]. rewrite H, (cleanup_eta w).
  cbn [bind try_except emit ret try_finally app].
  now rewrite <- app_assoc.
Qed.

(** X20 on a callback that fails at once. *)
Lemma callback_failure_is_reported_witness :
  transcribe_video (example_world [1] (Ok [[1]]) [Ok (lit "hi")])
                   example_file (lit "en-US") 30
                   (Some (fun _ _ => raise (OtherException (lit "closed"))))
  = ([St_error (MsgGeneralError (lit "closed")); Unlink TempAudio;
      Unlink TempVideo], Ok None).
Proof.
  apply (callback_failure_is_reported
           (example_world [1] (Ok [[1]]) [Ok (lit "hi")])
           example_file (lit "en-US") 30
           (fun _ _ => raise (OtherException (lit "closed")))
           [] (OtherException (lit "closed"))).
  reflexivity.
Defined.
